(** * TabNet forward pass (tf-TabNet, [tabnet.py]): a shallow embedding

    Tensors hold real numbers: the float32 arithmetic of TensorFlow is
    idealised as arithmetic in [R], so [NaN], overflow and rounding are
    outside the model.  Shapes are dynamic, as in the source, and an operation
    on incompatible shapes raises. *)

From Stdlib Require Import Reals Lra Lia List Arith Bool Permutation Sorted.
Import ListNotations.

Open Scope R_scope.

(** ** Errors

    A forward pass either yields a value or raises; the exception
    propagates to the caller. *)

Inductive error : Type :=
| InvalidArgument   (* incompatible shapes in a TensorFlow operation *)
| LayerError.       (* an error raised inside a Keras layer *)

Inductive result (A : Type) : Type :=
| Ok (a : A)
| Raise (e : error).

Arguments Ok {A} a.
Arguments Raise {A} e.

Definition bind {A B : Type} (m : result A) (f : A -> result B) : result B :=
  match m with
  | Ok a => f a
  | Raise e => Raise e
  end.

Notation "x <- m ;; k" := (bind m (fun x => k))
  (at level 61, m at next level, right associativity).
Notation "' p <- m ;; k" := (bind m (fun x => match x with p => k end))
  (at level 61, p pattern, m at next level, right associativity).

(** Monadic left fold: a [for] loop whose body may raise. *)
Fixpoint foldM {S A : Type} (body : S -> A -> result S) (l : list A) (s : S)
  : result S :=
  match l with
  | [] => Ok s
  | a :: l' => s' <- body s a ;; foldM body l' s'
  end.

(** ** Rows of reals *)

Definition rsum (l : list R) : R := fold_right Rplus 0 l.

Definition Rrelu (x : R) : R := Rmax x 0.

Definition Rsigmoid (x : R) : R := 1 / (1 + exp (- x)).

(** A point of the probability simplex. *)
Definition simplex (p : list R) : Prop :=
  Forall (fun x => 0 <= x) p /\ rsum p = 1.

(** ** custom_objects.sparsemax, on one row *)

Fixpoint insert_desc (x : R) (l : list R) : list R :=
  match l with
  | [] => [x]
  | y :: l' => if Rle_dec y x then x :: l else y :: insert_desc x l'
  end.

Definition sort_desc (l : list R) : list R := fold_right insert_desc [] l.

(** Scan of the sorted row: [k] entries with sum [cum] have been read, and
    [best] is the threshold of the largest position seen so far whose value
    exceeds [(cumsum - 1) / position]. *)
Fixpoint threshold_scan (k : nat) (cum best : R) (sorted : list R) : R :=
  match sorted with
  | [] => best
  | z :: rest =>
      let k' := S k in
      let cum' := cum + z in
      let t := (cum' - 1) / INR k' in
      threshold_scan k' cum' (if Rlt_dec t z then t else best) rest
  end.

Definition sparsemax_threshold (z : list R) : R :=
  threshold_scan 0 0 0 (sort_desc z).

(** Modelled from the spec: [custom_objects.sparsemax] is imported by
    [tabnet.py] but its module is not among the sources.  Per row: sort the
    entries descending, find the largest [k] such that the [k]-th sorted
    value exceeds [(cumsum_k - 1) / k], take [tau = (cumsum_k - 1) / k] and
    return [max (score - tau) 0] for each entry. *)
Definition sparsemax_row (z : list R) : list R :=
  let tau := sparsemax_threshold z in
  map (fun x => Rmax (x - tau) 0) z.

(** Positions of the sorted row, read after [k] entries of sum [cum], that
    all fail the support test. *)
Fixpoint all_fail (k : nat) (cum : R) (l : list R) : Prop :=
  match l with
  | [] => True
  | z :: rest =>
      ~ ((cum + z - 1) / INR (S k) < z) /\ all_fail (S k) (cum + z) rest
  end.

(** ** Tensors of rank two

  A [batch, width] tensor is the list of its rows together with its width,
  which a tensor of batch size zero still has. *)

Record Tensor : Type := mkTensor { ncols : nat; rows : list (list R) }.

Definition nrows (t : Tensor) : nat := length (rows t).

Definition well_shaped (t : Tensor) : Prop :=
Forall (fun r => length r = ncols t) (rows t).

(** Every entry of the tensor satisfies [P]. *)
Definition entries (P : R -> Prop) (t : Tensor) : Prop :=
Forall (Forall P) (rows t).

Definition get (t : Tensor) (i j : nat) : R := nth j (nth i (rows t) []) 0.

Definition zip_with {A B C : Type} (f : A -> B -> C) (l1 : list A) (l2 : list B)
: list C :=
map (fun p => f (fst p) (snd p)) (combine l1 l2).

(** The TensorFlow operations [tabnet.py] uses. *)
Module tf.

Definition zeros (batch n : nat) : Tensor :=
  mkTensor n (repeat (repeat 0 n) batch).

Definition ones (batch n : nat) : Tensor :=
  mkTensor n (repeat (repeat 1 n) batch).

(** Unary operations, and operations with a Python scalar. *)
Definition pointwise (f : R -> R) (t : Tensor) : Tensor :=
  mkTensor (ncols t) (map (map f) (rows t)).

(** Broadcasting of one dimension: equal sizes, or one of them is 1. *)
Definition broadcast_dim (a b : nat) : option nat :=
  if (a =? b)%nat then Some a
  else if (a =? 1)%nat then Some b
  else if (b =? 1)%nat then Some a
  else None.

Definition bidx (dim i : nat) : nat := if (dim =? 1)%nat then 0%nat else i.

Definition bget (t : Tensor) (i j : nat) : R :=
  get t (bidx (nrows t) i) (bidx (ncols t) j).

(** Binary operations of two tensors broadcast both dimensions and raise
    on incompatible shapes. *)
Definition broadcast (f : R -> R -> R) (a b : Tensor) : result Tensor :=
  match broadcast_dim (nrows a) (nrows b), broadcast_dim (ncols a) (ncols b) with
  | Some r, Some c =>
      Ok (mkTensor c
            (map (fun i => map (fun j => f (bget a i j) (bget b i j)) (seq 0 c))
                 (seq 0 r)))
  | _, _ => Raise InvalidArgument
  end.

Definition add : Tensor -> Tensor -> result Tensor := broadcast Rplus.
Definition multiply : Tensor -> Tensor -> result Tensor := broadcast Rmult.

(** [t[:, :k]] and [t[:, k:]]: a slice bound past the width is clipped. *)
Definition slice_to (k : nat) (t : Tensor) : Tensor :=
  mkTensor (Nat.min k (ncols t)) (map (firstn k) (rows t)).

Definition slice_from (k : nat) (t : Tensor) : Tensor :=
  mkTensor (ncols t - k) (map (skipn k) (rows t)).

Module nn.
Definition relu : Tensor -> Tensor := pointwise Rrelu.
Definition sigmoid : Tensor -> Tensor := pointwise Rsigmoid.
End nn.

Module math.
Definition log : Tensor -> Tensor := pointwise ln.
End math.

(** [tf.reduce_sum(t, axis=1, keepdims=True)] *)
Definition reduce_sum_keepdims (t : Tensor) : Tensor :=
  mkTensor 1 (map (fun r => [rsum r]) (rows t)).

(** [tf.reduce_sum(t, axis=1)]: a tensor of rank one. *)
Definition reduce_sum (t : Tensor) : list R := map rsum (rows t).

(** [tf.reduce_mean] of a tensor of rank one.  On an empty batch
    TensorFlow yields [NaN], which the model does not have: the properties
    of the entropy below take a batch with at least one row. *)
Definition reduce_mean (v : list R) : R := rsum v / INR (length v).

End tf.

(** ** custom_objects *)

Module custom_objects.

(** Modelled from the spec: [custom_objects.glu] is imported by [tabnet.py]
    but its module is not among the sources.  Split the vector into the
    halves [a], [b] at [n_units]; the output is [a * sigmoid b]. *)
Definition glu (x : Tensor) (n_units : nat) : result Tensor :=
  tf.multiply (tf.slice_to n_units x) (tf.nn.sigmoid (tf.slice_from n_units x)).

(** Modelled from the spec: [custom_objects.sparsemax] along the last
    axis, that is [sparsemax_row] on every row. *)
Definition sparsemax (z : Tensor) : Tensor :=
  mkTensor (ncols z) (map sparsemax_row (rows z)).

End custom_objects.

(** ** The Keras layers, at their boundary

  [DenseFeatures], [Dense] and [BatchNormalization] belong to TensorFlow.
  A layer object has a state (weights built at the first call, moving
  statistics); calling it may raise, and otherwise returns the output with
  the layer's new state.  Only the shape contract of the layers is
  assumed. *)

Inductive activation : Type := linear | softmax.

Class Keras : Type := {
FeatureColumn : Type;
Inputs : Type;
DenseFeatures : Type;
Dense : Type;
BatchNormalization : Type;

DenseFeatures_init : list FeatureColumn -> DenseFeatures;
Dense_init : nat -> activation -> Dense;
BatchNormalization_init : R -> option nat -> BatchNormalization;

units : Dense -> nat;

DenseFeatures_call : DenseFeatures -> Inputs -> result Tensor;
Dense_call : Dense -> Tensor -> result (Tensor * Dense);
BatchNormalization_call :
  BatchNormalization -> Tensor -> option bool ->
  result (Tensor * BatchNormalization);

units_init : forall n a, units (Dense_init n a) = n;
DenseFeatures_shape : forall l x t,
  DenseFeatures_call l x = Ok t -> well_shaped t;
Dense_shape : forall d x y d',
  well_shaped x -> Dense_call d x = Ok (y, d') ->
  well_shaped y /\ nrows y = nrows x /\ ncols y = units d /\
  units d' = units d;
BatchNormalization_shape : forall b x training y b',
  well_shaped x -> BatchNormalization_call b x training = Ok (y, b') ->
  well_shaped y /\ nrows y = nrows x /\ ncols y = ncols x
}.

(** ** class TransformBlock *)

Module TransformBlock.
Section WithKeras.
Context {K : Keras}.

Record t : Type := mk {
  features : nat;
  momentum : R;
  virtual_batch_size : option nat;
  transform : Dense;
  bn : BatchNormalization
}.

Definition init (features : nat) (momentum : R)
    (virtual_batch_size : option nat) : t :=
  {| features := features;
     momentum := momentum;
     virtual_batch_size := virtual_batch_size;
     transform := Dense_init features linear;
     bn := BatchNormalization_init momentum virtual_batch_size |}.

Definition call (self : t) (inputs : Tensor) (training : option bool)
  : result (Tensor * t) :=
  '(x, transform') <- Dense_call (transform self) inputs ;;
  '(x, bn') <- BatchNormalization_call (bn self) x training ;;
  Ok (x, {| features := features self;
            momentum := momentum self;
            virtual_batch_size := virtual_batch_size self;
            transform := transform';
            bn := bn' |}).

End WithKeras.
End TransformBlock.

(** ** class TabNet *)

Module TabNet.
Section WithKeras.
Context {K : Keras}.

Record t : Type := mk {
  feature_columns : list FeatureColumn;
  num_features : nat;
  feature_dim : nat;
  output_dim : nat;
  num_decision_steps : nat;
  relaxation_factor : R;
  batch_momentum : R;
  virtual_batch_size : option nat;
  epsilon : R;
  input_features : DenseFeatures;
  input_bn : BatchNormalization;
  transform_f1 : TransformBlock.t;
  transform_f2 : TransformBlock.t;
  transform_f3 : TransformBlock.t;
  transform_f4 : TransformBlock.t;
  transform_coef : TransformBlock.t
}.

Definition init (feature_columns : list FeatureColumn) (feature_dim : nat)
    (num_features : option nat) (output_dim num_decision_steps : nat)
    (relaxation_factor batch_momentum : R) (virtual_batch_size : option nat)
    (lambd_sparsity : R) : t :=
  let num_features :=
    match num_features with
    | Some n => n
    | None => length feature_columns
    end in
  {| feature_columns := feature_columns;
     num_features := num_features;
     feature_dim := feature_dim;
     output_dim := output_dim;
     num_decision_steps := num_decision_steps;
     relaxation_factor := relaxation_factor;
     batch_momentum := batch_momentum;
     virtual_batch_size := virtual_batch_size;
     epsilon := lambd_sparsity;
     input_features := DenseFeatures_init feature_columns;
     input_bn := BatchNormalization_init batch_momentum None;
     transform_f1 :=
       TransformBlock.init (2 * feature_dim) batch_momentum virtual_batch_size;
     transform_f2 :=
       TransformBlock.init (2 * feature_dim) batch_momentum virtual_batch_size;
     transform_f3 :=
       TransformBlock.init (2 * feature_dim) batch_momentum virtual_batch_size;
     transform_f4 :=
       TransformBlock.init (2 * feature_dim) batch_momentum virtual_batch_size;
     transform_coef :=
       TransformBlock.init num_features batch_momentum virtual_batch_size |}.

Definition set_input_bn (self : t) (b : BatchNormalization) : t :=
  {| feature_columns := feature_columns self;
     num_features := num_features self;
     feature_dim := feature_dim self;
     output_dim := output_dim self;
     num_decision_steps := num_decision_steps self;
     relaxation_factor := relaxation_factor self;
     batch_momentum := batch_momentum self;
     virtual_batch_size := virtual_batch_size self;
     epsilon := epsilon self;
     input_features := input_features self;
     input_bn := b;
     transform_f1 := transform_f1 self;
     transform_f2 := transform_f2 self;
     transform_f3 := transform_f3 self;
     transform_f4 := transform_f4 self;
     transform_coef := transform_coef self |}.

Definition set_transform_f (self : t) (b1 b2 b3 b4 : TransformBlock.t) : t :=
  {| feature_columns := feature_columns self;
     num_features := num_features self;
     feature_dim := feature_dim self;
     output_dim := output_dim self;
     num_decision_steps := num_decision_steps self;
     relaxation_factor := relaxation_factor self;
     batch_momentum := batch_momentum self;
     virtual_batch_size := virtual_batch_size self;
     epsilon := epsilon self;
     input_features := input_features self;
     input_bn := input_bn self;
     transform_f1 := b1;
     transform_f2 := b2;
     transform_f3 := b3;
     transform_f4 := b4;
     transform_coef := transform_coef self |}.

Definition set_transform_coef (self : t) (b : TransformBlock.t) : t :=
  {| feature_columns := feature_columns self;
     num_features := num_features self;
     feature_dim := feature_dim self;
     output_dim := output_dim self;
     num_decision_steps := num_decision_steps self;
     relaxation_factor := relaxation_factor self;
     batch_momentum := batch_momentum self;
     virtual_batch_size := virtual_batch_size self;
     epsilon := epsilon self;
     input_features := input_features self;
     input_bn := input_bn self;
     transform_f1 := transform_f1 self;
     transform_f2 := transform_f2 self;
     transform_f3 := transform_f3 self;
     transform_f4 := transform_f4 self;
     transform_coef := b |}.

(** The variables carried by the loop over the decision steps, with the
    model object, whose layers the calls update. *)
Record locals : Type := mk_locals {
  model : t;
  output_aggregated : Tensor;
  masked_features : Tensor;
  mask_values : Tensor;
  aggregated_mask_values : Tensor;
  complemantary_aggregated_mask_values : Tensor;
  total_entropy : R
}.

(** Lines 119-132: the feature transformer of one decision step. *)
Definition feature_transformer (self : t) (masked_features : Tensor)
    (training : option bool) : result (Tensor * t) :=
  '(f1, b1) <- TransformBlock.call (transform_f1 self) masked_features training ;;
  f1 <- custom_objects.glu f1 (feature_dim self) ;;
  '(f2, b2) <- TransformBlock.call (transform_f2 self) f1 training ;;
  g2 <- custom_objects.glu f2 (feature_dim self) ;;
  s2 <- tf.add g2 f1 ;;
  let f2 := tf.pointwise (fun x => x * sqrt (1 / 2)) s2 in
  '(f3, b3) <- TransformBlock.call (transform_f3 self) f2 training ;;
  g3 <- custom_objects.glu f3 (feature_dim self) ;;
  s3 <- tf.add g3 f2 ;;
  let f3 := tf.pointwise (fun x => x * sqrt (1 / 2)) s3 in
  '(f4, b4) <- TransformBlock.call (transform_f4 self) f3 training ;;
  g4 <- custom_objects.glu f4 (feature_dim self) ;;
  s4 <- tf.add g4 f3 ;;
  let f4 := tf.pointwise (fun x => x * sqrt (1 / 2)) s4 in
  Ok (f4, set_transform_f self b1 b2 b3 b4).

(** Lines 134-145: decision aggregation, skipped at the first step. *)
Definition aggregate (self : t) (st : locals) (f4 : Tensor) (ni : nat)
  : result (Tensor * Tensor) :=
  if (0 <? ni)%nat then
    let decision_out := tf.nn.relu (tf.slice_to (output_dim self) f4) in
    output_aggregated <- tf.add (output_aggregated st) decision_out ;;
    let scale_agg := tf.reduce_sum_keepdims decision_out in
    let scale_agg :=
      tf.pointwise (fun x => x / INR (num_decision_steps self - 1)) scale_agg in
    weighted <- tf.multiply (mask_values st) scale_agg ;;
    aggregated_mask_values <- tf.add (aggregated_mask_values st) weighted ;;
    Ok (output_aggregated, aggregated_mask_values)
  else Ok (output_aggregated st, aggregated_mask_values st).

(** Lines 164-167: the entropy of a mask. *)
Definition mask_entropy (epsilon : R) (mask_values : Tensor) : result R :=
  p <- tf.multiply (tf.pointwise Ropp mask_values)
         (tf.math.log (tf.pointwise (fun x => x + epsilon) mask_values)) ;;
  Ok (tf.reduce_mean (tf.reduce_sum p)).

(** The body of the loop, lines 116-170, at step [ni]. *)
Definition decision_step (features : Tensor) (training : option bool)
    (st : locals) (ni : nat) : result locals :=
  '(f4, self1) <- feature_transformer (model st) (masked_features st) training ;;
  '(output_aggregated, aggregated_mask_values) <- aggregate self1 st f4 ni ;;
  let features_for_coef := tf.slice_from (output_dim self1) f4 in
  if (ni <? num_decision_steps self1 - 1)%nat then
    '(mask_values, coef) <-
      TransformBlock.call (transform_coef self1) features_for_coef training ;;
    mask_values <-
      tf.multiply mask_values (complemantary_aggregated_mask_values st) ;;
    let mask_values := custom_objects.sparsemax mask_values in
    complemantary_aggregated_mask_values <-
      tf.multiply (complemantary_aggregated_mask_values st)
        (tf.pointwise (fun m => relaxation_factor self1 - m) mask_values) ;;
    entropy <- mask_entropy (epsilon self1) mask_values ;;
    let total_entropy :=
      total_entropy st + entropy / INR (num_decision_steps self1 - 1) in
    masked_features <- tf.multiply mask_values features ;;
    Ok {| model := set_transform_coef self1 coef;
          output_aggregated := output_aggregated;
          masked_features := masked_features;
          mask_values := mask_values;
          aggregated_mask_values := aggregated_mask_values;
          complemantary_aggregated_mask_values :=
            complemantary_aggregated_mask_values;
          total_entropy := total_entropy |}
  else
    Ok {| model := self1;
          output_aggregated := output_aggregated;
          masked_features := masked_features st;
          mask_values := mask_values st;
          aggregated_mask_values := aggregated_mask_values;
          complemantary_aggregated_mask_values :=
            complemantary_aggregated_mask_values st;
          total_entropy := total_entropy st |}.

(** Lines 101-102: the encoded and normalised input features. *)
Definition normalized_features (self : t) (inputs : Inputs)
    (training : option bool) : result (Tensor * t) :=
  features <- DenseFeatures_call (input_features self) inputs ;;
  '(features, bn') <- BatchNormalization_call (input_bn self) features training ;;
  Ok (features, set_input_bn self bn').

(** Lines 104-114: the variables before the first decision step. *)
Definition initial (self : t) (features : Tensor) : locals :=
  let batch_size := nrows features in
  {| model := self;
     output_aggregated := tf.zeros batch_size (output_dim self);
     masked_features := features;
     mask_values := tf.zeros batch_size (num_features self);
     aggregated_mask_values := tf.zeros batch_size (num_features self);
     complemantary_aggregated_mask_values :=
       tf.ones batch_size (num_features self);
     total_entropy := 0 |}.

(** The variables after the first [k] iterations of the loop. *)
Definition after_steps (self : t) (features : Tensor)
    (training : option bool) (k : nat) : result locals :=
  foldM (decision_step features training) (seq 0 k) (initial self features).

Definition call (self : t) (inputs : Inputs) (training : option bool)
  : result ((Tensor * R) * t) :=
  '(features, self) <- normalized_features self inputs training ;;
  st <- after_steps self features training (num_decision_steps self) ;;
  Ok ((output_aggregated st, total_entropy st), model st).

End WithKeras.
End TabNet.

(** ** class TabNetClassification *)

Module TabNetClassification.
Section WithKeras.
Context {K : Keras}.

(** The attributes [activations] and [total_entropy] do not exist before
    the first call. *)
Record t : Type := mk {
  num_classes : nat;
  tabnet : TabNet.t;
  clf : Dense;
  activations : option Tensor;
  total_entropy : option R
}.

Definition init (feature_columns : list FeatureColumn) (num_classes : nat)
    (num_features : option nat) (feature_dim output_dim num_decision_steps : nat)
    (relaxation_factor batch_momentum : R) (virtual_batch_size : option nat)
    (lambd_sparsity : R) : t :=
  {| num_classes := num_classes;
     tabnet := TabNet.init feature_columns feature_dim num_features output_dim
                 num_decision_steps relaxation_factor batch_momentum
                 virtual_batch_size lambd_sparsity;
     clf := Dense_init num_classes softmax;
     activations := None;
     total_entropy := None |}.

Definition call (self : t) (inputs : Inputs) (training : option bool)
  : result (Tensor * t) :=
  '((activations, total_entropy), tabnet') <-
    TabNet.call (tabnet self) inputs training ;;
  '(out, clf') <- Dense_call (clf self) activations ;;
  Ok (out, {| num_classes := num_classes self;
              tabnet := tabnet';
              clf := clf';
              activations := Some activations;
              total_entropy := Some total_entropy |}).

End WithKeras.
End TabNetClassification.

(** ** class TabNetRegression *)

Module TabNetRegression.
Section WithKeras.
Context {K : Keras}.

Record t : Type := mk {
  num_regressors : nat;
  tabnet : TabNet.t;
  regressor : Dense;
  activations : option Tensor;
  total_entropy : option R
}.

Definition init (feature_columns : list FeatureColumn) (num_regressors : nat)
    (num_features : option nat) (feature_dim output_dim num_decision_steps : nat)
    (relaxation_factor batch_momentum : R) (virtual_batch_size : option nat)
    (lambd_sparsity : R) : t :=
  {| num_regressors := num_regressors;
     tabnet := TabNet.init feature_columns feature_dim num_features output_dim
                 num_decision_steps relaxation_factor batch_momentum
                 virtual_batch_size lambd_sparsity;
     regressor := Dense_init num_regressors linear;
     activations := None;
     total_entropy := None |}.

Definition call (self : t) (inputs : Inputs) (training : option bool)
  : result (Tensor * t) :=
  '((activations, total_entropy), tabnet') <-
    TabNet.call (tabnet self) inputs training ;;
  '(out, regressor') <- Dense_call (regressor self) activations ;;
  Ok (out, {| num_regressors := num_regressors self;
              tabnet := tabnet';
              regressor := regressor';
              activations := Some activations;
              total_entropy := Some total_entropy |}).

End WithKeras.
End TabNetRegression.

(** ** The specification's formulas

    Definitions in the words of the specification, against which the model
    of the code is compared. *)

(** The gated linear unit: the vector is split into the halves [a], [b] of
    width [n], and the output is [a * sigmoid b]. *)
Definition spec_GLU (n : nat) (y : Tensor) : Tensor :=
  mkTensor n
    (map (fun r => zip_with (fun a b => a * Rsigmoid b) (firstn n r) (skipn n r))
         (rows y)).

(** The scaled residual connection [(g + prev) * sqrt 0.5]. *)
Definition spec_residual (g prev : Tensor) : Tensor :=
  mkTensor (ncols prev)
    (zip_with (zip_with (fun a b => (a + b) * sqrt (1 / 2))) (rows g) (rows prev)).

(** The mean over the batch of the sum over the features of
    [- mask * log (mask + epsilon)]. *)
Definition spec_entropy_term (epsilon : R) (mask : Tensor) : R :=
  rsum (map (fun row => rsum (map (fun m => - m * ln (m + epsilon)) row))
          (rows mask))
  / INR (nrows mask).

Section PassDefinitions.
Context {K : Keras}.

Definition block_units (b : TransformBlock.t) : nat :=
  units (TransformBlock.transform b).

(** What the constructor establishes about the widths of the blocks, and
    every call keeps. *)
Definition consistent (self : TabNet.t) : Prop :=
  block_units (TabNet.transform_f1 self) = (2 * TabNet.feature_dim self)%nat /\
  block_units (TabNet.transform_f2 self) = (2 * TabNet.feature_dim self)%nat /\
  block_units (TabNet.transform_f3 self) = (2 * TabNet.feature_dim self)%nat /\
  block_units (TabNet.transform_f4 self) = (2 * TabNet.feature_dim self)%nat /\
  block_units (TabNet.transform_coef self) = TabNet.num_features self.

Definition same_config (a b : TabNet.t) : Prop :=
  TabNet.num_features a = TabNet.num_features b /\
  TabNet.feature_dim a = TabNet.feature_dim b /\
  TabNet.output_dim a = TabNet.output_dim b /\
  TabNet.num_decision_steps a = TabNet.num_decision_steps b /\
  TabNet.relaxation_factor a = TabNet.relaxation_factor b /\
  TabNet.epsilon a = TabNet.epsilon b.

(** The feature transformer as the specification words it, over the four
    blocks of the model. *)
Definition spec_transform_chain (self : TabNet.t) (x : Tensor)
    (training : option bool) : result (Tensor * TabNet.t) :=
  let n := TabNet.feature_dim self in
  '(y1, b1) <- TransformBlock.call (TabNet.transform_f1 self) x training ;;
  let out1 := spec_GLU n y1 in
  '(y2, b2) <- TransformBlock.call (TabNet.transform_f2 self) out1 training ;;
  let out2 := spec_residual (spec_GLU n y2) out1 in
  '(y3, b3) <- TransformBlock.call (TabNet.transform_f3 self) out2 training ;;
  let out3 := spec_residual (spec_GLU n y3) out2 in
  '(y4, b4) <- TransformBlock.call (TabNet.transform_f4 self) out3 training ;;
  let out4 := spec_residual (spec_GLU n y4) out3 in
  Ok (out4, TabNet.set_transform_f self b1 b2 b3 b4).

(** The mask generation of a step that is not the last one: it takes the
    variables [st] to [st'], given the model [self1] and the output [f4]
    of the feature transformer of that step. *)
Definition mask_update (features : Tensor) (training : option bool)
    (self1 : TabNet.t) (f4 : Tensor) (st st' : TabNet.locals) : Prop :=
  exists raw coef scaled entropy,
    TransformBlock.call (TabNet.transform_coef self1)
      (tf.slice_from (TabNet.output_dim self1) f4) training = Ok (raw, coef) /\
    tf.multiply raw (TabNet.complemantary_aggregated_mask_values st)
      = Ok scaled /\
    TabNet.mask_values st' = custom_objects.sparsemax scaled /\
    tf.multiply (TabNet.complemantary_aggregated_mask_values st)
      (tf.pointwise (fun m => TabNet.relaxation_factor self1 - m)
         (TabNet.mask_values st'))
      = Ok (TabNet.complemantary_aggregated_mask_values st') /\
    TabNet.mask_entropy (TabNet.epsilon self1) (TabNet.mask_values st')
      = Ok entropy /\
    TabNet.total_entropy st'
      = TabNet.total_entropy st
        + entropy / INR (TabNet.num_decision_steps self1 - 1) /\
    tf.multiply (TabNet.mask_values st') features
      = Ok (TabNet.masked_features st') /\
    TabNet.model st' = TabNet.set_transform_coef self1 coef.

(** The last step leaves the mask, the budget, the entropy and the masked
    features as they are. *)
Definition mask_kept (self1 : TabNet.t) (st st' : TabNet.locals) : Prop :=
  TabNet.model st' = self1 /\
  TabNet.masked_features st' = TabNet.masked_features st /\
  TabNet.mask_values st' = TabNet.mask_values st /\
  TabNet.complemantary_aggregated_mask_values st'
    = TabNet.complemantary_aggregated_mask_values st /\
  TabNet.total_entropy st' = TabNet.total_entropy st.

(** Shapes of the loop variables during a pass of [self0] on [features]. *)
Definition shaped (self0 : TabNet.t) (features : Tensor) (st : TabNet.locals)
  : Prop :=
  same_config self0 (TabNet.model st) /\
  consistent (TabNet.model st) /\
  well_shaped (TabNet.masked_features st) /\
  nrows (TabNet.masked_features st) = nrows features /\
  well_shaped (TabNet.mask_values st) /\
  nrows (TabNet.mask_values st) = nrows features /\
  ncols (TabNet.mask_values st) = TabNet.num_features self0 /\
  well_shaped (TabNet.complemantary_aggregated_mask_values st) /\
  nrows (TabNet.complemantary_aggregated_mask_values st) = nrows features /\
  ncols (TabNet.complemantary_aggregated_mask_values st)
    = TabNet.num_features self0.

(** [st] holds the loop variables after the first [k] decision steps of
    the forward pass of [self] on [inputs], and [features] are the
    normalised input features of that pass. *)
Definition pass_state (self : TabNet.t) (inputs : Inputs)
    (training : option bool) (k : nat) (features : Tensor)
    (st : TabNet.locals) : Prop :=
  exists self1,
    TabNet.normalized_features self inputs training = Ok (features, self1) /\
    (k <= TabNet.num_decision_steps self)%nat /\
    TabNet.after_steps self1 features training k = Ok st.
End PassDefinitions.

(** * Properties *)

(** ** Lemmas on rows *)

#[local] Arguments INR _ : simpl never.

Lemma sorted_desc_split (l1 l2 : list R) (z : R) :
  StronglySorted Rge (l1 ++ z :: l2) ->
  Forall (fun x => z <= x) l1 /\ Forall (fun x => x <= z) l2 /\
  StronglySorted Rge l2.
Proof.
  induction l1 as [|a l1 IH]; simpl; intros Hs;
    apply StronglySorted_inv in Hs; destruct Hs as [Hs Ha].
  - repeat split; trivial.
    eapply Forall_impl; [|exact Ha]. simpl; intros; lra.
  - destruct (IH Hs) as (H1 & H2 & H3). repeat split; trivial.
    constructor; trivial.
    rewrite Forall_app in Ha. destruct Ha as [_ Ha].
    apply Forall_inv in Ha. lra.
Qed.

Lemma rsum_app (l1 l2 : list R) : rsum (l1 ++ l2) = rsum l1 + rsum l2.
Proof.
  induction l1 as [|x l1 IH]; simpl; [lra | rewrite IH; lra].
Qed.

Lemma rsum_perm (l1 l2 : list R) : Permutation l1 l2 -> rsum l1 = rsum l2.
Proof.
  induction 1; simpl; lra.
Qed.

Lemma rsum_nonneg (l : list R) : Forall (fun x => 0 <= x) l -> 0 <= rsum l.
Proof.
  induction 1; simpl; lra.
Qed.

Lemma insert_desc_perm (x : R) (l : list R) :
  Permutation (x :: l) (insert_desc x l).
Proof.
  induction l as [|y l IH]; simpl; [reflexivity|].
  destruct (Rle_dec y x); [reflexivity|].
  rewrite perm_swap. now apply perm_skip.
Qed.

Lemma sort_desc_perm (l : list R) : Permutation l (sort_desc l).
Proof.
  induction l as [|x l IH]; simpl; [constructor|].
  etransitivity; [apply perm_skip, IH | apply insert_desc_perm].
Qed.

Lemma insert_desc_sorted (x : R) (l : list R) :
  StronglySorted Rge l -> StronglySorted Rge (insert_desc x l).
Proof.
  induction 1 as [|y l Hs IH Hy]; simpl.
  - repeat constructor.
  - destruct (Rle_dec y x) as [Hle|Hnle].
    + constructor; [now constructor|].
      constructor; [lra|].
      eapply Forall_impl; [|exact Hy]. simpl; intros; lra.
    + constructor; [exact IH|].
      eapply Permutation_Forall; [apply insert_desc_perm|].
      constructor; [lra | exact Hy].
Qed.

Lemma sort_desc_sorted (l : list R) : StronglySorted Rge (sort_desc l).
Proof.
  induction l; simpl; [constructor | now apply insert_desc_sorted].
Qed.

Lemma sort_desc_nonempty (l : list R) : l <> [] -> sort_desc l <> [].
Proof.
  intros Hl Hs. apply Hl.
  apply Permutation_nil. rewrite <- Hs. symmetry. apply sort_desc_perm.
Qed.

(** The scan either keeps [best] because every position fails, or returns
    the threshold of the last position that passes. *)
Lemma threshold_scan_char (l : list R) :
  forall k cum best,
    (threshold_scan k cum best l = best /\ all_fail k cum l) \/
    (exists l1 z l2,
        l = l1 ++ z :: l2 /\
        threshold_scan k cum best l
          = (cum + rsum l1 + z - 1) / INR (k + length l1 + 1) /\
        (cum + rsum l1 + z - 1) / INR (k + length l1 + 1) < z /\
        all_fail (k + length l1 + 1) (cum + rsum l1 + z) l2).
Proof.
  induction l as [|z rest IH]; intros k cum best; simpl.
  - left; split; trivial.
  - specialize (IH (S k) (cum + z)
                  (if Rlt_dec ((cum + z - 1) / INR (S k)) z
                   then (cum + z - 1) / INR (S k) else best)).
    destruct IH as [[Heq Hfail] | (l1 & z' & l2 & Hl & Heq & Hlt & Hfail)].
    + destruct (Rlt_dec ((cum + z - 1) / INR (S k)) z) as [Hc|Hc].
      * right. exists [], z, rest. simpl.
        replace (k + 0 + 1)%nat with (S k) by lia.
        replace (cum + 0 + z) with (cum + z) by lra.
        repeat split; trivial.
      * left. repeat split; trivial.
    + right. exists (z :: l1), z', l2. simpl.
      replace (k + S (length l1) + 1)%nat with (S k + length l1 + 1)%nat by lia.
      replace (cum + (z + rsum l1) + z') with (cum + z + rsum l1 + z') by lra.
      subst rest. repeat split; trivial.
Qed.

Lemma rsum_clip_above (tau : R) (l : list R) :
  Forall (fun x => tau <= x) l ->
  rsum (map (fun x => Rmax (x - tau) 0) l) = rsum l - INR (length l) * tau.
Proof.
  induction 1 as [|x l Hx _ IH].
  - simpl. change (INR 0) with 0. lra.
  - cbn [map rsum fold_right length]. fold (rsum l).
    fold (rsum (map (fun x => Rmax (x - tau) 0) l)).
    rewrite IH, S_INR, Rmax_left by lra. lra.
Qed.

Lemma rsum_clip_below (tau : R) (l : list R) :
  Forall (fun x => x <= tau) l ->
  rsum (map (fun x => Rmax (x - tau) 0) l) = 0.
Proof.
  induction 1 as [|x l Hx _ IH].
  - reflexivity.
  - cbn [map rsum fold_right].
    fold (rsum (map (fun x => Rmax (x - tau) 0) l)).
    rewrite IH, Rmax_right by lra. lra.
Qed.

(** On a sorted row the clipped entries sum to one. *)
Lemma sorted_clip_sum (s : list R) :
  s <> [] -> StronglySorted Rge s ->
  rsum (map (fun x => Rmax (x - threshold_scan 0 0 0 s) 0) s) = 1.
Proof.
  intros Hne Hsorted.
  destruct (threshold_scan_char s 0%nat 0 0)
    as [[_ Hfail] | (l1 & z & l2 & Hs & Heq & Hlt & Hfail)].
  - destruct s as [|z0 rest]; [congruence|].
    simpl in Hfail. destruct Hfail as [Hf _]. exfalso; apply Hf.
    change (INR 1) with 1. lra.
  - rewrite Heq. clear Heq.
    set (K := (0 + length l1 + 1)%nat) in *.
    set (C := 0 + rsum l1 + z) in *.
    set (tau := (C - 1) / INR K) in *.
    assert (HK : 0 < INR K) by (apply lt_0_INR; unfold K; lia).
    assert (Htau : INR K * tau = C - 1) by (unfold tau; field; lra).
    subst s.
    destruct (sorted_desc_split _ _ _ Hsorted) as (H1 & H2 & H3).
    assert (Hl1 : Forall (fun x => tau <= x) (l1 ++ [z])).
    { rewrite Forall_app; split.
      - eapply Forall_impl; [|exact H1]. simpl; intros; lra.
      - repeat constructor; lra. }
    assert (Hl2 : Forall (fun x => x <= tau) l2).
    { destruct l2 as [|y l2]; [constructor|].
      simpl in Hfail. destruct Hfail as [Hy _].
      apply StronglySorted_inv in H3. destruct H3 as [_ H3].
      assert (Hyt : y <= tau).
      { apply Rnot_lt_le in Hy.
        assert (HK' : 0 < INR (S K)) by (apply lt_0_INR; lia).
        apply (Rmult_le_compat_r (INR (S K))) in Hy; [|lra].
        replace ((C + y - 1) / INR (S K) * INR (S K)) with (C + y - 1) in Hy
          by (field; lra).
        rewrite S_INR in Hy.
        apply (Rmult_le_reg_l (INR K)); [exact HK|]. lra. }
      constructor; [exact Hyt|].
      eapply Forall_impl; [|exact H3]. simpl; intros; lra. }
    replace (l1 ++ z :: l2) with ((l1 ++ [z]) ++ l2)
      by (rewrite <- app_assoc; reflexivity).
    rewrite map_app, rsum_app, rsum_clip_above, rsum_clip_below by assumption.
    rewrite rsum_app, length_app. simpl.
    replace (length l1 + 1)%nat with K by (unfold K; lia).
    unfold C in Htau. lra.
Qed.

Lemma sparsemax_row_nonneg (z : list R) :
  Forall (fun x => 0 <= x) (sparsemax_row z).
Proof.
  unfold sparsemax_row. apply Forall_forall. intros x Hx.
  apply in_map_iff in Hx. destruct Hx as (y & <- & _). apply Rmax_r.
Qed.

Lemma sparsemax_row_sum (z : list R) :
  z <> [] -> rsum (sparsemax_row z) = 1.
Proof.
  intros Hz. unfold sparsemax_row, sparsemax_threshold.
  rewrite (rsum_perm _ _ (Permutation_map _ (sort_desc_perm z))).
  apply sorted_clip_sum; [now apply sort_desc_nonempty | apply sort_desc_sorted].
Qed.

Lemma sparsemax_row_simplex (z : list R) :
  z <> [] -> simplex (sparsemax_row z).
Proof.
  split; [apply sparsemax_row_nonneg | now apply sparsemax_row_sum].
Qed.

Lemma sparsemax_row_length (z : list R) :
  length (sparsemax_row z) = length z.
Proof. unfold sparsemax_row. apply length_map. Qed.

(** ** The error monad *)

Lemma bind_Ok_inv {A B : Type} (m : result A) (k : A -> result B) (b : B) :
  bind m k = Ok b -> exists a, m = Ok a /\ k a = Ok b.
Proof.
  destruct m as [a|e]; simpl; [eauto | discriminate].
Qed.

Lemma foldM_app {S A : Type} (body : S -> A -> result S) (l1 l2 : list A) (s : S) :
  foldM body (l1 ++ l2) s = (s' <- foldM body l1 s ;; foldM body l2 s').
Proof.
  revert s. induction l1 as [|a l1 IH]; intros s; simpl; [reflexivity|].
  destruct (body s a); simpl; [apply IH | reflexivity].
Qed.

Ltac inv_bind H :=
  let a := fresh "r" in
  let E := fresh "E" in
  apply bind_Ok_inv in H; destruct H as (a & E & H).

(** ** Shapes *)

Lemma nth_zip_with {A B C} (f : A -> B -> C) l1 l2 i da db dc :
  (i < length l1)%nat -> (i < length l2)%nat ->
  nth i (zip_with f l1 l2) dc = f (nth i l1 da) (nth i l2 db).
Proof.
  unfold zip_with. revert l2 i.
  induction l1 as [|a l1 IH]; intros [|b l2] [|i]; simpl; intros; try lia; trivial.
  apply IH; lia.
Qed.

Lemma length_zip_with {A B C} (f : A -> B -> C) l1 l2 :
  length (zip_with f l1 l2) = Nat.min (length l1) (length l2).
Proof.
  unfold zip_with. now rewrite length_map, length_combine.
Qed.

Lemma well_shaped_nth (t : Tensor) (i : nat) :
  well_shaped t -> (i < nrows t)%nat -> length (nth i (rows t) []) = ncols t.
Proof.
  unfold well_shaped, nrows. intros H Hi.
  rewrite Forall_forall in H. apply H. now apply nth_In.
Qed.

Lemma broadcast_dim_same (n : nat) : tf.broadcast_dim n n = Some n.
Proof. unfold tf.broadcast_dim. now rewrite Nat.eqb_refl. Qed.

Lemma bidx_lt (dim r i : nat) (other : nat) :
  tf.broadcast_dim dim other = Some r -> (i < r)%nat -> (tf.bidx dim i < dim)%nat.
Proof.
  unfold tf.broadcast_dim, tf.bidx.
  destruct (Nat.eqb_spec dim other); [intros [= <-]; destruct (Nat.eqb_spec dim 1); lia|].
  destruct (Nat.eqb_spec dim 1); [lia|].
  destruct (Nat.eqb_spec other 1); [intros [= <-]; lia | discriminate].
Qed.

Lemma bidx_lt_r (dim r i : nat) (other : nat) :
  tf.broadcast_dim other dim = Some r -> (i < r)%nat -> (tf.bidx dim i < dim)%nat.
Proof.
  unfold tf.broadcast_dim, tf.bidx.
  destruct (Nat.eqb_spec other dim); [intros [= <-]; destruct (Nat.eqb_spec dim 1); lia|].
  destruct (Nat.eqb_spec other 1); [intros [= <-]; destruct (Nat.eqb_spec dim 1); lia|].
  destruct (Nat.eqb_spec dim 1); [lia | discriminate].
Qed.

Lemma broadcast_shape (f : R -> R -> R) (a b c : Tensor) :
  tf.broadcast f a b = Ok c ->
  well_shaped c /\
  tf.broadcast_dim (nrows a) (nrows b) = Some (nrows c) /\
  tf.broadcast_dim (ncols a) (ncols b) = Some (ncols c).
Proof.
  unfold tf.broadcast.
  destruct (tf.broadcast_dim (nrows a) (nrows b)) as [r|]; [|discriminate].
  destruct (tf.broadcast_dim (ncols a) (ncols b)) as [w|]; [|discriminate].
  intros [= <-]. unfold well_shaped, nrows; simpl.
  rewrite length_map, length_seq. repeat split.
  apply Forall_forall. intros row Hrow. apply in_map_iff in Hrow.
  destruct Hrow as (i & <- & _). now rewrite length_map, length_seq.
Qed.

Lemma get_entries (P : R -> Prop) (t : Tensor) (i j : nat) :
  well_shaped t -> entries P t -> (i < nrows t)%nat -> (j < ncols t)%nat ->
  P (get t i j).
Proof.
  intros Hw He Hi Hj. unfold get.
  unfold entries in He. rewrite Forall_forall in He.
  assert (Hin : In (nth i (rows t) []) (rows t)) by now apply nth_In.
  specialize (He _ Hin). rewrite Forall_forall in He. apply He.
  apply nth_In. now rewrite well_shaped_nth.
Qed.

(** A broadcast operation combines an entry of each operand. *)
Lemma broadcast_entries (P Q S : R -> Prop) (f : R -> R -> R) (a b c : Tensor) :
  well_shaped a -> well_shaped b -> entries P a -> entries Q b ->
  (forall x y, P x -> Q y -> S (f x y)) ->
  tf.broadcast f a b = Ok c -> entries S c.
Proof.
  intros Ha Hb HP HQ Hf Hc. unfold tf.broadcast in Hc.
  destruct (tf.broadcast_dim (nrows a) (nrows b)) as [r|] eqn:Er; [|discriminate].
  destruct (tf.broadcast_dim (ncols a) (ncols b)) as [w|] eqn:Ew; [|discriminate].
  injection Hc as <-. unfold entries; simpl.
  apply Forall_forall. intros row Hrow. apply in_map_iff in Hrow.
  destruct Hrow as (i & <- & Hi). apply in_seq in Hi.
  apply Forall_forall. intros x Hx. apply in_map_iff in Hx.
  destruct Hx as (j & <- & Hj). apply in_seq in Hj.
  apply Hf; unfold tf.bget.
  - apply get_entries; trivial.
    + eapply bidx_lt; [exact Er | lia].
    + eapply bidx_lt; [exact Ew | lia].
  - apply get_entries; trivial.
    + eapply bidx_lt_r; [exact Er | lia].
    + eapply bidx_lt_r; [exact Ew | lia].
Qed.

(** On operands of one shape a broadcast operation is the entrywise one. *)
Lemma broadcast_same_shape (f : R -> R -> R) (a b : Tensor) :
  well_shaped a -> well_shaped b ->
  nrows a = nrows b -> ncols a = ncols b ->
  tf.broadcast f a b
  = Ok (mkTensor (ncols a) (zip_with (zip_with f) (rows a) (rows b))).
Proof.
  intros Ha Hb Hr Hc. unfold tf.broadcast.
  rewrite <- Hr, <- Hc, !broadcast_dim_same. f_equal. f_equal.
  apply (nth_ext _ _ [] []).
  - rewrite length_map, length_seq, length_zip_with.
    fold (nrows a) (nrows b). lia.
  - intros i Hi. rewrite length_map, length_seq in Hi.
    rewrite (nth_indep _ [] (map (fun j => f (tf.bget a 0 j) (tf.bget b 0 j))
                                  (seq 0 (ncols a))))
      by now rewrite length_map, length_seq.
    rewrite (map_nth (fun i => map (fun j => f (tf.bget a i j) (tf.bget b i j))
                                (seq 0 (ncols a))) (seq 0 (nrows a)) 0%nat i).
    rewrite seq_nth by exact Hi. simpl.
    rewrite (nth_zip_with (zip_with f) (rows a) (rows b) i [] [] [])
      by (fold (nrows a) (nrows b); lia).
    apply (nth_ext _ _ 0 0).
    + rewrite length_map, length_seq, length_zip_with.
      rewrite !well_shaped_nth by (trivial; lia). lia.
    + intros j Hj. rewrite length_map, length_seq in Hj.
      rewrite (nth_indep _ 0 (f (tf.bget a i 0) (tf.bget b i 0)))
        by now rewrite length_map, length_seq.
      rewrite (map_nth (fun j => f (tf.bget a i j) (tf.bget b i j))
                 (seq 0 (ncols a)) 0%nat j).
      rewrite seq_nth by exact Hj. simpl.
      rewrite (nth_zip_with f _ _ j 0 0 0)
        by (rewrite well_shaped_nth; trivial; lia).
      unfold tf.bget, get, tf.bidx. rewrite <- Hr, <- Hc.
      destruct (Nat.eqb_spec (nrows a) 1) as [E1|E1];
        destruct (Nat.eqb_spec (ncols a) 1) as [E2|E2];
        repeat (replace i with 0%nat by lia);
        repeat (replace j with 0%nat by lia); reflexivity.
Qed.

(** ** Lists *)

Lemma zip_with_map_same {A B C D} (f : B -> C -> D) (g : A -> B) (h : A -> C) l :
  zip_with f (map g l) (map h l) = map (fun x => f (g x) (h x)) l.
Proof.
  unfold zip_with. induction l as [|x l IH]; simpl; [reflexivity | now rewrite IH].
Qed.

Lemma zip_with_map_r {A B C D} (f : A -> C -> D) (h : B -> C) l1 l2 :
  zip_with f l1 (map h l2) = zip_with (fun a b => f a (h b)) l1 l2.
Proof.
  unfold zip_with. revert l2.
  induction l1 as [|x l1 IH]; intros [|y l2]; simpl; trivial. now rewrite IH.
Qed.

Lemma map_zip_with {A B C D} (f : A -> B -> C) (h : C -> D) l1 l2 :
  map h (zip_with f l1 l2) = zip_with (fun a b => h (f a b)) l1 l2.
Proof.
  unfold zip_with. rewrite map_map. reflexivity.
Qed.

Lemma zip_with_ext_in {A B C} (f g : A -> B -> C) l1 l2 :
  (forall a b, In a l1 -> In b l2 -> f a b = g a b) ->
  zip_with f l1 l2 = zip_with g l1 l2.
Proof.
  unfold zip_with. intros H. apply map_ext_in. intros [a b] Hin. simpl.
  apply H; [eapply in_combine_l | eapply in_combine_r]; exact Hin.
Qed.

(** ** Shapes of the tensor operations *)

Lemma pointwise_shape (f : R -> R) (t : Tensor) :
  well_shaped t ->
  well_shaped (tf.pointwise f t) /\ nrows (tf.pointwise f t) = nrows t /\
  ncols (tf.pointwise f t) = ncols t.
Proof.
  unfold well_shaped, nrows, tf.pointwise; simpl. intros H.
  rewrite length_map. repeat split.
  apply Forall_map. eapply Forall_impl; [|exact H].
  simpl. intros r Hr. now rewrite length_map.
Qed.

Lemma pointwise_entries (P Q : R -> Prop) (f : R -> R) (t : Tensor) :
  (forall x, P x -> Q (f x)) -> entries P t -> entries Q (tf.pointwise f t).
Proof.
  unfold entries, tf.pointwise; simpl. intros Hf H.
  apply Forall_map. eapply Forall_impl; [|exact H].
  simpl. intros r Hr. apply Forall_map. eapply Forall_impl; [|exact Hr]. exact Hf.
Qed.

Lemma slice_to_shape (k : nat) (t : Tensor) :
  well_shaped t ->
  well_shaped (tf.slice_to k t) /\ nrows (tf.slice_to k t) = nrows t /\
  ncols (tf.slice_to k t) = Nat.min k (ncols t).
Proof.
  unfold well_shaped, nrows, tf.slice_to; simpl. intros H.
  rewrite length_map. repeat split.
  apply Forall_map. eapply Forall_impl; [|exact H].
  simpl. intros r Hr. now rewrite length_firstn, Hr.
Qed.

Lemma slice_from_shape (k : nat) (t : Tensor) :
  well_shaped t ->
  well_shaped (tf.slice_from k t) /\ nrows (tf.slice_from k t) = nrows t /\
  ncols (tf.slice_from k t) = (ncols t - k)%nat.
Proof.
  unfold well_shaped, nrows, tf.slice_from; simpl. intros H.
  rewrite length_map. repeat split.
  apply Forall_map. eapply Forall_impl; [|exact H].
  simpl. intros r Hr. now rewrite length_skipn, Hr.
Qed.

Lemma const_shape (c : R) (b n : nat) :
  well_shaped (mkTensor n (repeat (repeat c n) b)) /\
  nrows (mkTensor n (repeat (repeat c n) b)) = b.
Proof.
  unfold well_shaped, nrows; simpl. rewrite repeat_length. split; trivial.
  apply Forall_forall. intros r Hr. apply repeat_spec in Hr. subst r.
  apply repeat_length.
Qed.

Lemma const_entries (P : R -> Prop) (c : R) (b n : nat) :
  P c -> entries P (mkTensor n (repeat (repeat c n) b)).
Proof.
  intros Hc. unfold entries; simpl.
  apply Forall_forall. intros r Hr. apply repeat_spec in Hr. subst r.
  apply Forall_forall. intros x Hx. apply repeat_spec in Hx. now subst x.
Qed.

Lemma sparsemax_shape (z : Tensor) :
  well_shaped z ->
  well_shaped (custom_objects.sparsemax z) /\
  nrows (custom_objects.sparsemax z) = nrows z /\
  ncols (custom_objects.sparsemax z) = ncols z.
Proof.
  unfold well_shaped, nrows, custom_objects.sparsemax; simpl. intros H.
  rewrite length_map. repeat split.
  apply Forall_map. eapply Forall_impl; [|exact H].
  simpl. intros r Hr. now rewrite sparsemax_row_length.
Qed.

(** With the two halves of equal width, [glu] is the gated linear unit. *)
Lemma glu_GLU (x : Tensor) (n : nat) :
  well_shaped x -> ncols x = (2 * n)%nat ->
  custom_objects.glu x n = Ok (spec_GLU n x).
Proof.
  intros Hx Hc. unfold custom_objects.glu, tf.multiply, tf.nn.sigmoid.
  destruct (slice_to_shape n x Hx) as (Ha & Hra & Hca).
  destruct (slice_from_shape n x Hx) as (Hb & Hrb & Hcb).
  destruct (pointwise_shape Rsigmoid _ Hb) as (Hs & Hrs & Hcs).
  rewrite broadcast_same_shape; trivial; try lia.
  unfold spec_GLU. f_equal. f_equal; [rewrite Hca; lia|].
  simpl. rewrite map_map, zip_with_map_same.
  apply map_ext. intros r. apply zip_with_map_r.
Qed.

Lemma GLU_shape (x : Tensor) (n : nat) :
  well_shaped x -> ncols x = (2 * n)%nat ->
  well_shaped (spec_GLU n x) /\ nrows (spec_GLU n x) = nrows x /\ ncols (spec_GLU n x) = n.
Proof.
  intros Hx Hc. unfold well_shaped, nrows, spec_GLU; simpl.
  rewrite length_map. repeat split.
  apply Forall_map. eapply Forall_impl; [|exact Hx].
  simpl. intros r Hr.
  rewrite length_zip_with, length_firstn, length_skipn. lia.
Qed.

(** The residual connection, on operands of one shape. *)
Lemma add_scale_residual (g prev : Tensor) :
  well_shaped g -> well_shaped prev ->
  nrows g = nrows prev -> ncols g = ncols prev ->
  exists s, tf.add g prev = Ok s /\
            tf.pointwise (fun x => x * sqrt (1 / 2)) s = spec_residual g prev.
Proof.
  intros Hg Hp Hr Hc. unfold tf.add.
  rewrite broadcast_same_shape by assumption.
  eexists; split; [reflexivity|].
  unfold tf.pointwise, spec_residual; simpl. f_equal; [exact Hc|].
  rewrite map_zip_with. apply zip_with_ext_in. intros a b _ _.
  apply map_zip_with.
Qed.

Lemma residual_shape (g prev : Tensor) :
  well_shaped g -> well_shaped prev ->
  nrows g = nrows prev -> ncols g = ncols prev ->
  well_shaped (spec_residual g prev) /\ nrows (spec_residual g prev) = nrows prev /\
  ncols (spec_residual g prev) = ncols prev.
Proof.
  intros Hg Hp Hr Hc.
  destruct (add_scale_residual g prev Hg Hp Hr Hc) as (s & Hs & <-).
  apply broadcast_shape in Hs. destruct Hs as (Hw & Hrs & Hcs).
  rewrite Hr, broadcast_dim_same in Hrs. rewrite Hc, broadcast_dim_same in Hcs.
  destruct (pointwise_shape (fun x => x * sqrt (1 / 2)) s Hw) as (? & ? & ?).
  repeat split; trivial; congruence.
Qed.

(** ** Masks *)

Lemma nonneg_le_rsum (l : list R) (x : R) :
  Forall (fun y => 0 <= y) l -> In x l -> x <= rsum l.
Proof.
  induction 1 as [|y l Hy Hl IH]; simpl; [tauto|].
  pose proof (rsum_nonneg l Hl). unfold rsum in *.
  intros [<- | Hin]; [lra | specialize (IH Hin); lra].
Qed.

Lemma sparsemax_row_sum_le (z : list R) : rsum (sparsemax_row z) <= 1.
Proof.
  destruct z as [|x z]; [simpl; lra|].
  rewrite sparsemax_row_sum by discriminate. lra.
Qed.

Lemma sparsemax_row_unit (z : list R) :
  Forall (fun x => 0 <= x <= 1) (sparsemax_row z).
Proof.
  apply Forall_forall. intros x Hx.
  pose proof (sparsemax_row_nonneg z) as Hn. split.
  - rewrite Forall_forall in Hn. now apply Hn.
  - pose proof (nonneg_le_rsum _ _ Hn Hx). pose proof (sparsemax_row_sum_le z). lra.
Qed.

Lemma sparsemax_entries (z : Tensor) :
  entries (fun x => 0 <= x <= 1) (custom_objects.sparsemax z).
Proof.
  unfold entries, custom_objects.sparsemax; simpl.
  apply Forall_map, Forall_forall. intros r _. apply sparsemax_row_unit.
Qed.

Lemma sparsemax_rows_simplex (z : Tensor) :
  well_shaped z -> (0 < ncols z)%nat ->
  Forall simplex (rows (custom_objects.sparsemax z)).
Proof.
  intros Hz Hn. unfold custom_objects.sparsemax; simpl.
  apply Forall_map. eapply Forall_impl; [|exact Hz].
  simpl. intros r Hr. apply sparsemax_row_simplex.
  intros ->. simpl in Hr. lia.
Qed.

(** ** Entries of tensors of one shape *)

Lemma get_zip (f : R -> R -> R) (a b : Tensor) (n i j : nat) :
  well_shaped a -> well_shaped b -> nrows a = nrows b -> ncols a = ncols b ->
  (i < nrows a)%nat -> (j < ncols a)%nat ->
  get (mkTensor n (zip_with (zip_with f) (rows a) (rows b))) i j
  = f (get a i j) (get b i j).
Proof.
  intros Ha Hb Hr Hc Hi Hj. unfold get; simpl.
  rewrite (nth_zip_with (zip_with f) (rows a) (rows b) i [] [] [])
    by (fold (nrows a) (nrows b); lia).
  apply nth_zip_with; rewrite well_shaped_nth; trivial; lia.
Qed.

Lemma get_pointwise (f : R -> R) (t : Tensor) (i j : nat) :
  well_shaped t -> (i < nrows t)%nat -> (j < ncols t)%nat ->
  get (tf.pointwise f t) i j = f (get t i j).
Proof.
  intros Ht Hi Hj. unfold get, tf.pointwise; simpl.
  rewrite (nth_indep _ [] (map f [])) by now rewrite length_map.
  rewrite map_nth.
  rewrite (nth_indep _ 0 (f 0))
    by (rewrite length_map, well_shaped_nth; trivial).
  apply map_nth.
Qed.

Lemma multiply_get (a b c : Tensor) (i j : nat) :
  well_shaped a -> well_shaped b -> nrows a = nrows b -> ncols a = ncols b ->
  tf.multiply a b = Ok c -> (i < nrows a)%nat -> (j < ncols a)%nat ->
  get c i j = get a i j * get b i j.
Proof.
  intros Ha Hb Hr Hc H Hi Hj. unfold tf.multiply in H.
  rewrite broadcast_same_shape in H by assumption.
  injection H as <-. now apply get_zip.
Qed.

(** ** The entropy of a mask *)

Lemma mask_entropy_term (epsilon : R) (mask : Tensor) :
  well_shaped mask ->
  TabNet.mask_entropy epsilon mask = Ok (spec_entropy_term epsilon mask).
Proof.
  intros Hm. unfold TabNet.mask_entropy, tf.multiply, tf.math.log.
  destruct (pointwise_shape Ropp mask Hm) as (W1 & R1 & C1).
  destruct (pointwise_shape (fun x => x + epsilon) mask Hm) as (W2 & R2 & C2).
  destruct (pointwise_shape ln _ W2) as (W3 & R3 & C3).
  rewrite broadcast_same_shape by (trivial; congruence).
  cbn [bind]. f_equal. unfold tf.reduce_mean, tf.reduce_sum, spec_entropy_term.
  cbn [rows tf.pointwise]. rewrite length_map.
  rewrite (map_map (map (fun x => x + epsilon)) (map ln)).
  rewrite zip_with_map_same, length_map, map_map.
  fold (nrows mask). f_equal. f_equal.
  apply map_ext. intros row.
  rewrite map_map, zip_with_map_same. reflexivity.
Qed.

Lemma row_entropy_bound (epsilon : R) (row : list R) :
  0 < epsilon -> Forall (fun m => 0 <= m <= 1) row ->
  - ln (1 + epsilon) * rsum row
  <= rsum (map (fun m => - m * ln (m + epsilon)) row).
Proof.
  intros He. induction 1 as [|m row Hm _ IH]; simpl; [lra|].
  unfold rsum in *.
  assert (ln (m + epsilon) <= ln (1 + epsilon)).
  { destruct (Req_dec m 1) as [->|Hne]; [lra|].
    left. apply ln_increasing; lra. }
  nra.
Qed.

Lemma entropy_term_bound (epsilon : R) (mask : Tensor) :
  0 < epsilon -> (0 < nrows mask)%nat ->
  Forall (fun row => Forall (fun m => 0 <= m <= 1) row /\ rsum row <= 1)
    (rows mask) ->
  - ln (1 + epsilon) <= spec_entropy_term epsilon mask.
Proof.
  intros He Hn Hrows. unfold spec_entropy_term.
  assert (HL : 0 < ln (1 + epsilon)).
  { rewrite <- ln_1. apply ln_increasing; lra. }
  assert (HB : 0 < INR (nrows mask)) by now apply lt_0_INR.
  assert (Hsum : - ln (1 + epsilon) * INR (nrows mask)
                 <= rsum (map (fun row => rsum (map (fun m => - m * ln (m + epsilon)) row))
                            (rows mask))).
  { unfold nrows. clear Hn HB.
    induction Hrows as [|row l [Hu Hs] _ IH].
    - simpl. change (INR 0) with 0. lra.
    - cbn [map rsum fold_right length]. rewrite S_INR.
      pose proof (row_entropy_bound epsilon row He Hu).
      unfold rsum in *. nra. }
  apply (Rmult_le_reg_r (INR (nrows mask))); [exact HB|].
  unfold Rdiv. rewrite Rmult_assoc, Rinv_l by lra. lra.
Qed.

Lemma rsum_repeat (c : R) (n : nat) : rsum (repeat c n) = INR n * c.
Proof.
  induction n as [|n IH].
  - simpl. change (INR 0) with 0. lra.
  - cbn [repeat rsum fold_right]. fold (rsum (repeat c n)).
    rewrite IH, S_INR. lra.
Qed.

Lemma map_zero_row (g : R -> R) (r : list R) :
  Forall (fun v => v = 0) r -> map g r = repeat (g 0) (length r).
Proof.
  induction 1 as [|x r Hx _ IH]; simpl; [reflexivity|]. now rewrite Hx, IH.
Qed.

(** On a row of zeros the mask is uniform. *)
Lemma sparsemax_zero_row (r : list R) :
  r <> [] -> Forall (fun v => v = 0) r ->
  Forall (fun m => m = 1 / INR (length r)) (sparsemax_row r).
Proof.
  intros Hne Hz. pose proof (sparsemax_row_sum r Hne) as Hsum.
  unfold sparsemax_row in *.
  rewrite (map_zero_row _ r Hz) in *. rewrite rsum_repeat in Hsum.
  assert (Hn : 0 < INR (length r)).
  { apply lt_0_INR. destruct r; [congruence | simpl; lia]. }
  apply Forall_forall. intros m Hm. apply repeat_spec in Hm. subst m.
  apply (Rmult_eq_reg_l (INR (length r))); [|lra].
  rewrite Hsum. field. lra.
Qed.

Lemma sparsemax_zero (z : Tensor) :
  well_shaped z -> (0 < ncols z)%nat -> entries (fun v => v = 0) z ->
  entries (fun m => m = 1 / INR (ncols z)) (custom_objects.sparsemax z).
Proof.
  intros Hw Hn Hz. unfold entries, custom_objects.sparsemax in *; simpl.
  apply Forall_map. unfold well_shaped in Hw.
  rewrite Forall_forall in *. intros r Hr.
  rewrite <- (Hw r Hr). apply sparsemax_zero_row; [|now apply Hz].
  intros ->. specialize (Hw [] Hr). simpl in Hw. lia.
Qed.

(** A tensor of shape [1, 1] whose row is on the simplex. *)
Lemma single_simplex (t : Tensor) :
  well_shaped t -> nrows t = 1%nat -> ncols t = 1%nat ->
  Forall simplex (rows t) -> rows t = [[1]].
Proof.
  unfold well_shaped, nrows. intros Hw Hr Hc Hs.
  destruct (rows t) as [|r [|r' l]]; try discriminate.
  apply Forall_inv in Hw, Hs. rewrite Hc in Hw.
  destruct r as [|m [|m' r]]; try discriminate.
  destruct Hs as [_ Hs]. simpl in Hs. f_equal. f_equal. lra.
Qed.


Section Properties.
Context {K : Keras}.

Lemma Ok_inj {A : Type} (a b : A) : Ok a = Ok b -> a = b.
Proof. congruence. Qed.

Lemma same_config_refl (a : TabNet.t) : same_config a a.
Proof. repeat split. Qed.

Lemma same_config_trans (a b c : TabNet.t) :
  same_config a b -> same_config b c -> same_config a c.
Proof.
  unfold same_config. intros (?&?&?&?&?&?) (?&?&?&?&?&?).
  repeat split; congruence.
Qed.

Lemma TransformBlock_call_shape (b b' : TransformBlock.t) (x y : Tensor)
    (training : option bool) :
  well_shaped x -> TransformBlock.call b x training = Ok (y, b') ->
  well_shaped y /\ nrows y = nrows x /\ ncols y = block_units b /\
  block_units b' = block_units b.
Proof.
  intros Hx H. unfold TransformBlock.call in H.
  inv_bind H. destruct r as [x1 d'].
  inv_bind H. destruct r as [x2 bn'].
  injection H as <- <-.
  destruct (Dense_shape _ _ _ _ Hx E) as (H1 & H2 & H3 & H4).
  destruct (BatchNormalization_shape _ _ _ _ _ H1 E0) as (H5 & H6 & H7).
  unfold block_units; simpl. repeat split; trivial; congruence.
Qed.

Lemma init_consistent feature_columns feature_dim num_features output_dim
    num_decision_steps relaxation_factor batch_momentum virtual_batch_size
    lambd_sparsity :
  consistent (TabNet.init feature_columns feature_dim num_features output_dim
                num_decision_steps relaxation_factor batch_momentum
                virtual_batch_size lambd_sparsity).
Proof.
  unfold consistent, block_units; cbn -[Nat.mul].
  rewrite !units_init. repeat split.
Qed.

(** One residual block of the chain. *)
Lemma residual_block (y prev : Tensor) (n : nat) :
  well_shaped y -> ncols y = (2 * n)%nat ->
  well_shaped prev -> nrows prev = nrows y -> ncols prev = n ->
  (g <- custom_objects.glu y n ;;
   s <- tf.add g prev ;;
   Ok (tf.pointwise (fun x => x * sqrt (1 / 2)) s))
  = Ok (spec_residual (spec_GLU n y) prev).
Proof.
  intros Hy Hc Hp Hr Hcp. rewrite glu_GLU by assumption. simpl.
  destruct (GLU_shape y n Hy Hc) as (Hg & Hrg & Hcg).
  destruct (add_scale_residual (spec_GLU n y) prev) as (s & -> & <-);
    trivial; try congruence.
Qed.

Lemma feature_transformer_chain (self : TabNet.t) (x : Tensor)
    (training : option bool) :
  consistent self -> well_shaped x ->
  TabNet.feature_transformer self x training = spec_transform_chain self x training.
Proof.
  intros (C1 & C2 & C3 & C4 & _) Hx.
  unfold TabNet.feature_transformer, spec_transform_chain.
  set (n := TabNet.feature_dim self) in *.
  destruct (TransformBlock.call (TabNet.transform_f1 self) x training)
    as [[y1 b1]|] eqn:E1; [|reflexivity]. cbn [bind].
  destruct (TransformBlock_call_shape _ _ _ _ _ Hx E1) as (W1 & R1 & N1 & _).
  rewrite C1 in N1. rewrite glu_GLU by assumption. cbn [bind].
  destruct (GLU_shape y1 n W1 N1) as (Wo1 & Ro1 & No1).
  destruct (TransformBlock.call (TabNet.transform_f2 self) (spec_GLU n y1) training)
    as [[y2 b2]|] eqn:E2; [|reflexivity]. cbn [bind].
  destruct (TransformBlock_call_shape _ _ _ _ _ Wo1 E2) as (W2 & R2 & N2 & _).
  rewrite C2 in N2.
  pose proof (residual_block y2 (spec_GLU n y1) n W2 N2 Wo1 (eq_sym R2) No1) as RB2.
  destruct (custom_objects.glu y2 n) as [g2|]; [|discriminate]. cbn [bind] in *.
  destruct (tf.add g2 (spec_GLU n y1)) as [s2|]; [|discriminate]. cbn [bind] in *.
  apply Ok_inj in RB2. rewrite RB2.
  destruct (GLU_shape y2 n W2 N2) as (Wg2 & Rg2 & Ng2).
  destruct (residual_shape (spec_GLU n y2) (spec_GLU n y1)) as (Wo2 & Ro2 & No2);
    trivial; try congruence.
  set (out2 := spec_residual (spec_GLU n y2) (spec_GLU n y1)) in *.
  destruct (TransformBlock.call (TabNet.transform_f3 self) out2 training)
    as [[y3 b3]|] eqn:E3; [|reflexivity]. cbn [bind].
  destruct (TransformBlock_call_shape _ _ _ _ _ Wo2 E3) as (W3 & R3 & N3 & _).
  rewrite C3 in N3.
  assert (No2' : ncols out2 = n) by congruence.
  pose proof (residual_block y3 out2 n W3 N3 Wo2 (eq_sym R3) No2') as RB3.
  destruct (custom_objects.glu y3 n) as [g3|]; [|discriminate]. cbn [bind] in *.
  destruct (tf.add g3 out2) as [s3|]; [|discriminate]. cbn [bind] in *.
  apply Ok_inj in RB3. rewrite RB3.
  destruct (GLU_shape y3 n W3 N3) as (Wg3 & Rg3 & Ng3).
  destruct (residual_shape (spec_GLU n y3) out2) as (Wo3 & Ro3 & No3);
    trivial; try congruence.
  set (out3 := spec_residual (spec_GLU n y3) out2) in *.
  destruct (TransformBlock.call (TabNet.transform_f4 self) out3 training)
    as [[y4 b4]|] eqn:E4; [|reflexivity]. cbn [bind].
  destruct (TransformBlock_call_shape _ _ _ _ _ Wo3 E4) as (W4 & R4 & N4 & _).
  rewrite C4 in N4.
  assert (No3' : ncols out3 = n) by congruence.
  pose proof (residual_block y4 out3 n W4 N4 Wo3 (eq_sym R4) No3') as RB4.
  destruct (custom_objects.glu y4 n) as [g4|]; [|discriminate]. cbn [bind] in *.
  destruct (tf.add g4 out3) as [s4|]; [|discriminate]. cbn [bind] in *.
  apply Ok_inj in RB4. rewrite RB4. reflexivity.
Qed.

Lemma transform_chain_shape (self self' : TabNet.t) (x f4 : Tensor)
    (training : option bool) :
  consistent self -> well_shaped x ->
  spec_transform_chain self x training = Ok (f4, self') ->
  well_shaped f4 /\ nrows f4 = nrows x /\ ncols f4 = TabNet.feature_dim self /\
  same_config self self' /\ consistent self' /\
  TabNet.transform_coef self' = TabNet.transform_coef self.
Proof.
  intros (C1 & C2 & C3 & C4 & C5) Hx H. unfold spec_transform_chain in H.
  set (n := TabNet.feature_dim self) in *.
  inv_bind H. destruct r as [y1 b1].
  destruct (TransformBlock_call_shape _ _ _ _ _ Hx E) as (W1 & R1 & N1 & U1).
  rewrite C1 in N1.
  destruct (GLU_shape y1 n W1 N1) as (Wo1 & Ro1 & No1).
  inv_bind H. destruct r as [y2 b2].
  destruct (TransformBlock_call_shape _ _ _ _ _ Wo1 E0) as (W2 & R2 & N2 & U2).
  rewrite C2 in N2.
  destruct (GLU_shape y2 n W2 N2) as (Wg2 & Rg2 & Ng2).
  destruct (residual_shape (spec_GLU n y2) (spec_GLU n y1)) as (Wo2 & Ro2 & No2);
    trivial; try congruence.
  inv_bind H. destruct r as [y3 b3].
  destruct (TransformBlock_call_shape _ _ _ _ _ Wo2 E1) as (W3 & R3 & N3 & U3).
  rewrite C3 in N3.
  destruct (GLU_shape y3 n W3 N3) as (Wg3 & Rg3 & Ng3).
  destruct (residual_shape (spec_GLU n y3) (spec_residual (spec_GLU n y2) (spec_GLU n y1)))
    as (Wo3 & Ro3 & No3); trivial; try congruence.
  inv_bind H. destruct r as [y4 b4].
  destruct (TransformBlock_call_shape _ _ _ _ _ Wo3 E2) as (W4 & R4 & N4 & U4).
  rewrite C4 in N4.
  destruct (GLU_shape y4 n W4 N4) as (Wg4 & Rg4 & Ng4).
  destruct (residual_shape (spec_GLU n y4)
              (spec_residual (spec_GLU n y3) (spec_residual (spec_GLU n y2) (spec_GLU n y1))))
    as (Wo4 & Ro4 & No4); trivial; try congruence.
  injection H as <- <-.
  split; [exact Wo4|]. split; [congruence|]. split; [congruence|].
  split; [repeat split|]. split; [|reflexivity].
  unfold consistent, TabNet.set_transform_f.
  cbn [TabNet.transform_f1 TabNet.transform_f2 TabNet.transform_f3
       TabNet.transform_f4 TabNet.transform_coef TabNet.feature_dim
       TabNet.num_features].
  fold n. repeat split; congruence.
Qed.

Lemma feature_transformer_shape (self self' : TabNet.t) (x f4 : Tensor)
    (training : option bool) :
  consistent self -> well_shaped x ->
  TabNet.feature_transformer self x training = Ok (f4, self') ->
  well_shaped f4 /\ nrows f4 = nrows x /\ ncols f4 = TabNet.feature_dim self /\
  same_config self self' /\ consistent self' /\
  TabNet.transform_coef self' = TabNet.transform_coef self.
Proof.
  intros C Hx H. rewrite feature_transformer_chain in H by assumption.
  now apply transform_chain_shape with (x := x) (training := training).
Qed.

(** What one iteration of the loop does when it does not raise. *)
Lemma decision_step_inv (features : Tensor) (training : option bool)
    (st st' : TabNet.locals) (ni : nat) :
  TabNet.decision_step features training st ni = Ok st' ->
  exists f4 self1,
    TabNet.feature_transformer (TabNet.model st) (TabNet.masked_features st)
      training = Ok (f4, self1) /\
    TabNet.aggregate self1 st f4 ni
      = Ok (TabNet.output_aggregated st', TabNet.aggregated_mask_values st') /\
    (((ni < TabNet.num_decision_steps self1 - 1)%nat /\
      mask_update features training self1 f4 st st') \/
     (~ (ni < TabNet.num_decision_steps self1 - 1)%nat /\
      mask_kept self1 st st')).
Proof.
  intros H. unfold TabNet.decision_step in H.
  inv_bind H. destruct r as [f4 self1].
  inv_bind H. destruct r as [oa am].
  exists f4, self1. split; [exact E|].
  destruct (Nat.ltb_spec ni (TabNet.num_decision_steps self1 - 1)) as [Hlt|Hge].
  - inv_bind H. destruct r as [raw coef].
    inv_bind H. rename r into scaled.
    inv_bind H. rename r into budget.
    inv_bind H. rename r into entropy.
    inv_bind H. rename r into masked.
    injection H as <-. simpl. split; [exact E0|].
    left. split; [exact Hlt|].
    exists raw, coef, scaled, entropy. simpl. repeat split; trivial.
  - injection H as <-. simpl. split; [exact E0|].
    right. split; [lia|]. repeat split.
Qed.

Lemma multiply_shape_same (a b c : Tensor) :
  nrows a = nrows b -> ncols a = ncols b ->
  tf.multiply a b = Ok c ->
  well_shaped c /\ nrows c = nrows a /\ ncols c = ncols a.
Proof.
  intros Hr Hc H. apply broadcast_shape in H. destruct H as (W & R1 & C1).
  rewrite Hr, broadcast_dim_same in R1. rewrite Hc, broadcast_dim_same in C1.
  repeat split; trivial; congruence.
Qed.

Lemma set_transform_coef_ok (self : TabNet.t) (b : TransformBlock.t) :
  consistent self -> block_units b = TabNet.num_features self ->
  consistent (TabNet.set_transform_coef self b) /\
  same_config self (TabNet.set_transform_coef self b).
Proof.
  intros (C1 & C2 & C3 & C4 & C5) Hb. split; [|repeat split].
  unfold consistent, TabNet.set_transform_coef.
  cbn [TabNet.transform_f1 TabNet.transform_f2 TabNet.transform_f3
       TabNet.transform_f4 TabNet.transform_coef TabNet.feature_dim
       TabNet.num_features].
  repeat split; assumption.
Qed.

Lemma shaped_initial (self : TabNet.t) (features : Tensor) :
  consistent self -> well_shaped features ->
  shaped self features (TabNet.initial self features).
Proof.
  intros C Hf. unfold shaped, TabNet.initial; simpl.
  pose proof (const_shape 0 (nrows features) (TabNet.num_features self)) as [Hz1 Hz2].
  pose proof (const_shape 1 (nrows features) (TabNet.num_features self)) as [Ho1 Ho2].
  unfold tf.zeros, tf.ones.
  split; [apply same_config_refl|]. split; [exact C|].
  repeat split; trivial.
Qed.

Lemma shaped_step (self : TabNet.t) (features : Tensor)
    (training : option bool) (st st' : TabNet.locals) (ni : nat) :
  well_shaped features -> shaped self features st ->
  TabNet.decision_step features training st ni = Ok st' ->
  shaped self features st'.
Proof.
  intros Hf (SC & C & Wm & Rm & Wk & Rk & Ck & Wb & Rb & Cb) H.
  apply decision_step_inv in H.
  destruct H as (f4 & self1 & Hft & _ & [[_ Hup] | [_ Hkeep]]).
  - destruct (feature_transformer_shape _ _ _ _ _ C Wm Hft)
      as (W4 & R4 & C4 & SC1 & C1 & Hcoef).
    destruct Hup as (raw & coef & scaled & entropy & Hraw & Hscaled & Hmask
                     & Hbud & _ & _ & Hmf & Hmodel).
    destruct (slice_from_shape (TabNet.output_dim self1) f4 W4) as (Ws & Rs & _).
    destruct (TransformBlock_call_shape _ _ _ _ _ Ws Hraw) as (Wr & Rr & Cr & Ur).
    pose proof C1 as (D1 & D2 & D3 & D4 & D5).
    pose proof (same_config_trans _ _ _ SC SC1) as SC2.
    pose proof SC2 as (Enf & _).
    assert (Craw : ncols raw = TabNet.num_features self) by congruence.
    assert (Rraw : nrows raw = nrows features) by congruence.
    destruct (multiply_shape_same _ _ _ (eq_trans Rraw (eq_sym Rb))
                (eq_trans Craw (eq_sym Cb)) Hscaled) as (Wsc & Rsc & Csc).
    destruct (sparsemax_shape scaled Wsc) as (Wk' & Rk' & Ck').
    rewrite <- Hmask in Wk', Rk', Ck'.
    destruct (pointwise_shape
                (fun m => TabNet.relaxation_factor self1 - m)
                (TabNet.mask_values st') Wk') as (Wp & Rp & Cp).
    destruct (multiply_shape_same _ _ _
                (eq_trans Rb (eq_sym (eq_trans Rp (eq_trans Rk'
                   (eq_trans Rsc Rraw)))))
                (eq_trans Cb (eq_sym (eq_trans Cp (eq_trans Ck'
                   (eq_trans Csc Craw)))))
                Hbud) as (Wb' & Rb' & Cb').
    apply broadcast_shape in Hmf. destruct Hmf as (Wmf & Rmf & _).
    replace (nrows (TabNet.mask_values st')) with (nrows features) in Rmf
      by congruence.
    rewrite broadcast_dim_same in Rmf. injection Rmf as Rmf.
    assert (Hcu : block_units coef = TabNet.num_features self1)
      by (rewrite Ur; exact D5).
    destruct (set_transform_coef_ok self1 coef C1 Hcu) as (C2' & SC3).
    unfold shaped. rewrite Hmodel.
    split; [eapply same_config_trans; [exact SC2 | exact SC3]|].
    split; [exact C2'|].
    repeat split; trivial; congruence.
  - destruct (feature_transformer_shape _ _ _ _ _ C Wm Hft)
      as (W4 & R4 & C4 & SC1 & C1 & Hcoef).
    destruct Hkeep as (Hmodel & Hmf & Hmk & Hbud & _).
    unfold shaped. rewrite Hmodel, Hmf, Hmk, Hbud.
    pose proof (same_config_trans _ _ _ SC SC1) as SC2.
    repeat split; trivial; try apply SC2; try apply C1.
Qed.

Lemma after_steps_S (self : TabNet.t) (features : Tensor)
    (training : option bool) (k : nat) :
  TabNet.after_steps self features training (S k)
  = (st <- TabNet.after_steps self features training k ;;
     TabNet.decision_step features training st k).
Proof.
  unfold TabNet.after_steps. rewrite seq_S, foldM_app. simpl.
  destruct (foldM _ _ _) as [st|]; simpl; [|reflexivity].
  destruct (TabNet.decision_step features training st k); reflexivity.
Qed.

Lemma shaped_after_steps (self : TabNet.t) (features : Tensor)
    (training : option bool) (k : nat) (st : TabNet.locals) :
  consistent self -> well_shaped features ->
  TabNet.after_steps self features training k = Ok st ->
  shaped self features st.
Proof.
  intros C Hf. revert st. induction k as [|k IH]; intros st H.
  - injection H as <-. now apply shaped_initial.
  - rewrite after_steps_S in H. inv_bind H.
    eapply shaped_step; eauto.
Qed.

Lemma normalized_features_ok (self self1 : TabNet.t) (inputs : Inputs)
    (training : option bool) (features : Tensor) :
  TabNet.normalized_features self inputs training = Ok (features, self1) ->
  well_shaped features /\ same_config self self1 /\
  (consistent self -> consistent self1).
Proof.
  intros H. unfold TabNet.normalized_features in H.
  inv_bind H. inv_bind H. destruct r0 as [f bn'].
  injection H as <- <-.
  apply DenseFeatures_shape in E.
  destruct (BatchNormalization_shape _ _ _ _ _ E E0) as (W & _).
  split; [exact W|]. split; [repeat split|]. intros C; exact C.
Qed.

Lemma pass_state_shaped self inputs training k features st :
  consistent self -> pass_state self inputs training k features st ->
  well_shaped features /\
  exists self1, same_config self self1 /\ shaped self1 features st.
Proof.
  intros C (self1 & Hn & Hk & Hs).
  destruct (normalized_features_ok _ _ _ _ _ Hn) as (W & SC & C1).
  split; [exact W|]. exists self1. split; [exact SC|].
  eapply shaped_after_steps; eauto.
Qed.

Lemma pass_state_step self inputs training k features st st' :
  pass_state self inputs training k features st ->
  pass_state self inputs training (S k) features st' ->
  TabNet.decision_step features training st k = Ok st'.
Proof.
  intros (self1 & Hn & Hk & Hs) (self2 & Hn' & Hk' & Hs').
  rewrite Hn in Hn'. injection Hn' as <-.
  rewrite after_steps_S, Hs in Hs'. exact Hs'.
Qed.

Lemma pass_state_pred self inputs training k features st' :
  pass_state self inputs training (S k) features st' ->
  exists st, pass_state self inputs training k features st.
Proof.
  intros (self1 & Hn & Hk & Hs). rewrite after_steps_S in Hs. inv_bind Hs.
  exists r, self1. repeat split; trivial. lia.
Qed.

Lemma same_config_sym (a b : TabNet.t) : same_config a b -> same_config b a.
Proof. unfold same_config. intros (?&?&?&?&?&?). repeat split; congruence. Qed.

Lemma shaped_config (a b : TabNet.t) (features : Tensor) (st : TabNet.locals) :
  same_config a b -> shaped b features st -> shaped a features st.
Proof.
  intros SC (S1 & C & H). unfold shaped.
  split; [eapply same_config_trans; eauto|]. split; [exact C|].
  destruct SC as (-> & _). exact H.
Qed.

(** One iteration of the loop within a forward pass. *)
Lemma pass_step_cases self inputs training ni features st st' :
  consistent self ->
  pass_state self inputs training ni features st ->
  pass_state self inputs training (S ni) features st' ->
  well_shaped features /\ shaped self features st /\ shaped self features st' /\
  exists f4 self1,
    same_config self self1 /\ consistent self1 /\
    TabNet.feature_transformer (TabNet.model st) (TabNet.masked_features st)
      training = Ok (f4, self1) /\
    well_shaped f4 /\ nrows f4 = nrows features /\
    ncols f4 = TabNet.feature_dim self /\
    TabNet.aggregate self1 st f4 ni
      = Ok (TabNet.output_aggregated st', TabNet.aggregated_mask_values st') /\
    (((ni < TabNet.num_decision_steps self - 1)%nat /\
      mask_update features training self1 f4 st st') \/
     (ni = (TabNet.num_decision_steps self - 1)%nat /\
      mask_kept self1 st st')).
Proof.
  intros C Hst Hst'.
  pose proof (pass_state_step _ _ _ _ _ _ _ Hst Hst') as Hstep.
  destruct (pass_state_shaped _ _ _ _ _ _ C Hst) as (Wf & s1 & SC1 & Sh).
  destruct (pass_state_shaped _ _ _ _ _ _ C Hst') as (_ & s1' & SC1' & Sh').
  apply (shaped_config _ _ _ _ SC1) in Sh.
  apply (shaped_config _ _ _ _ SC1') in Sh'.
  split; [exact Wf|]. split; [exact Sh|]. split; [exact Sh'|].
  destruct Hst' as (_ & _ & Hle & _).
  apply decision_step_inv in Hstep.
  destruct Hstep as (f4 & self1 & Hft & Hagg & Hcases).
  pose proof Sh as (SCm & Cm & Wm & Rm & _).
  destruct (feature_transformer_shape _ _ _ _ _ Cm Wm Hft)
    as (W4 & R4 & C4 & SC2 & C2 & _).
  pose proof (same_config_trans _ _ _ SCm SC2) as SC.
  pose proof SC as (_ & Efd & _ & EN & _).
  pose proof SCm as (_ & Efd' & _).
  exists f4, self1. repeat split; trivial; try apply SC; try apply C2;
    try congruence.
  rewrite EN.
  destruct Hcases as [[Hlt Hup] | [Hge Hkeep]]; [left | right]; split;
    trivial; lia.
Qed.

(** C1: at every decision step but the last, every row of the generated
    mask is entrywise non-negative and sums to one. *)
Theorem mask_rows_on_simplex self inputs training ni features st :
  consistent self ->
  (0 < TabNet.num_features self)%nat ->
  (ni < TabNet.num_decision_steps self - 1)%nat ->
  pass_state self inputs training (S ni) features st ->
  Forall simplex (rows (TabNet.mask_values st)).
Proof.
  intros C Hnf Hni Hst.
  destruct (pass_state_pred _ _ _ _ _ _ Hst) as (st0 & Hst0).
  destruct (pass_step_cases _ _ _ _ _ _ _ C Hst0 Hst)
    as (_ & _ & Sh & f4 & self1 & _ & _ & _ & _ & _ & _ & _ & Hcases).
  destruct Hcases as [[_ Hup] | [Hge _]]; [|lia].
  destruct Hup as (raw & coef & scaled & ent & _ & Hscaled & Hmask & _).
  destruct Sh as (_ & _ & _ & _ & _ & _ & Hc & _).
  rewrite Hmask in *. apply sparsemax_rows_simplex.
  - now apply broadcast_shape in Hscaled.
  - simpl in Hc. lia.
Qed.

(** C2: with a single decision step the pass returns the zero tensor of
    shape [batch, output_dim] and entropy zero. *)
Theorem single_step_returns_zero self inputs training features self1 f4 self2 :
  TabNet.num_decision_steps self = 1%nat ->
  TabNet.normalized_features self inputs training = Ok (features, self1) ->
  TabNet.feature_transformer self1 features training = Ok (f4, self2) ->
  TabNet.call self inputs training
  = Ok ((tf.zeros (nrows features) (TabNet.output_dim self), 0), self2).
Proof.
  intros HN Hn Hft. unfold TabNet.call. rewrite Hn. cbn [bind].
  destruct (normalized_features_ok _ _ _ _ _ Hn) as (_ & SC & _).
  destruct SC as (_ & _ & Eod & EN & _).
  rewrite <- EN, HN. unfold TabNet.after_steps. cbn [seq foldM].
  unfold TabNet.decision_step.
  cbn [TabNet.initial TabNet.model TabNet.masked_features].
  rewrite Hft. cbn [bind]. unfold TabNet.aggregate. cbn [Nat.ltb Nat.leb bind].
  assert (EN2 : TabNet.num_decision_steps self2 = 1%nat).
  { unfold TabNet.feature_transformer in Hft.
    repeat (inv_bind Hft; try destruct r as [? ?]).
    injection Hft as _ <-. simpl. congruence. }
  rewrite EN2. cbn. rewrite Eod. reflexivity.
Qed.

Lemma pass_state_0 self inputs training features st :
  pass_state self inputs training 0 features st ->
  exists self1, same_config self self1 /\ st = TabNet.initial self1 features.
Proof.
  intros (self1 & Hn & _ & Hs). injection Hs as <-.
  destruct (normalized_features_ok _ _ _ _ _ Hn) as (_ & SC & _). eauto.
Qed.

(** Budget update of one step, on entries. *)
Lemma mask_update_budget self features training self1 f4 st st' :
  same_config self self1 -> shaped self features st -> shaped self features st' ->
  mask_update features training self1 f4 st st' ->
  forall i j, (i < nrows features)%nat -> (j < TabNet.num_features self)%nat ->
    get (TabNet.complemantary_aggregated_mask_values st') i j
    = get (TabNet.complemantary_aggregated_mask_values st) i j
      * (TabNet.relaxation_factor self - get (TabNet.mask_values st') i j).
Proof.
  intros SC Sh Sh' Hup i j Hi Hj.
  destruct Hup as (raw & coef & scaled & ent & _ & _ & _ & Hbud & _).
  destruct Sh as (_ & _ & _ & _ & _ & _ & _ & Wb & Rb & Cb).
  destruct Sh' as (_ & _ & _ & _ & Wk & Rk & Ck & _).
  destruct SC as (_ & _ & _ & _ & Erf & _).
  destruct (pointwise_shape (fun m => TabNet.relaxation_factor self1 - m)
              (TabNet.mask_values st') Wk) as (Wp & Rp & Cp).
  rewrite (multiply_get _ _ _ i j Wb Wp) by (trivial; congruence).
  rewrite get_pointwise by (trivial; congruence). now rewrite Erf.
Qed.

(** C3, as amended: after [k] decision steps every entry of the budget
    lies between 0 and the relaxation factor to the power of the number
    of budget updates made so far. *)
Theorem budget_bounds self inputs training k features st :
  consistent self ->
  1 <= TabNet.relaxation_factor self ->
  pass_state self inputs training k features st ->
  entries
    (fun b => 0 <= b <= TabNet.relaxation_factor self
                        ^ Nat.min k (TabNet.num_decision_steps self - 1))
    (TabNet.complemantary_aggregated_mask_values st).
Proof.
  intros C Hrf. revert st. induction k as [|k IH]; intros st Hst.
  - apply pass_state_0 in Hst. destruct Hst as (self1 & _ & ->).
    cbn [TabNet.initial TabNet.complemantary_aggregated_mask_values Nat.min].
    apply const_entries. simpl. lra.
  - destruct (pass_state_pred _ _ _ _ _ _ Hst) as (st0 & Hst0).
    specialize (IH st0 Hst0).
    destruct (pass_step_cases _ _ _ _ _ _ _ C Hst0 Hst)
      as (_ & Sh & Sh' & f4 & self1 & SC & _ & _ & _ & _ & _ & _ & Hcases).
    destruct Hcases as [[Hlt Hup] | [-> Hkeep]].
    + destruct Hup as (raw & coef & scaled & ent & _ & _ & Hmask & Hbud & _).
      destruct Sh as (_ & _ & _ & _ & _ & _ & _ & Wb & _).
      destruct Sh' as (_ & _ & _ & _ & Wk & _).
      destruct SC as (_ & _ & _ & _ & Erf & _).
      destruct (pointwise_shape (fun m => TabNet.relaxation_factor self1 - m)
                  (TabNet.mask_values st) Wk) as (Wp & _).
      rewrite Nat.min_l in IH by lia. rewrite Nat.min_l by lia.
      eapply (broadcast_entries _
                (fun y => TabNet.relaxation_factor self - 1 <= y
                          <= TabNet.relaxation_factor self));
        [exact Wb | exact Wp | exact IH | | | exact Hbud].
      * eapply pointwise_entries; [|rewrite Hmask; apply sparsemax_entries].
        simpl. intros x Hx. rewrite <- Erf. lra.
      * simpl. intros x y [Hx1 Hx2] [Hy1 Hy2].
        assert (0 <= TabNet.relaxation_factor self ^ k) by (apply pow_le; lra).
        nra.
    + destruct Hkeep as (_ & _ & _ & -> & _).
      rewrite Nat.min_r in IH by lia. rewrite Nat.min_r by lia. exact IH.
Qed.

Lemma entropy_invariant self inputs training k features st :
  consistent self ->
  0 < TabNet.epsilon self ->
  (0 < nrows features)%nat ->
  pass_state self inputs training k features st ->
  - INR (Nat.min k (TabNet.num_decision_steps self - 1))
    * (ln (1 + TabNet.epsilon self)
       / INR (TabNet.num_decision_steps self - 1))
  <= TabNet.total_entropy st.
Proof.
  intros C He HB. revert st. induction k as [|k IH]; intros st Hst.
  - apply pass_state_0 in Hst. destruct Hst as (self1 & _ & ->).
    cbn [TabNet.initial TabNet.total_entropy Nat.min].
    change (INR 0) with 0. lra.
  - destruct (pass_state_pred _ _ _ _ _ _ Hst) as (st0 & Hst0).
    specialize (IH st0 Hst0).
    destruct (pass_step_cases _ _ _ _ _ _ _ C Hst0 Hst)
      as (_ & Sh & Sh' & f4 & self1 & SC & _ & _ & _ & _ & _ & _ & Hcases).
    destruct Hcases as [[Hlt Hup] | [-> Hkeep]].
    + destruct Hup as (raw & coef & scaled & ent & _ & _ & Hmask & _ & Hent
                       & Hte & _).
      destruct Sh' as (_ & _ & _ & _ & Wk & Rk & _).
      destruct SC as (_ & _ & _ & EN & _ & Eeps).
      rewrite mask_entropy_term in Hent by exact Wk. injection Hent as <-.
      rewrite Hte, <- EN, <- Eeps.
      rewrite Nat.min_l in IH by lia. rewrite Nat.min_l by lia.
      assert (Hb : - ln (1 + TabNet.epsilon self)
                   <= spec_entropy_term (TabNet.epsilon self) (TabNet.mask_values st)).
      { apply entropy_term_bound; trivial; [lia|].
        rewrite Hmask. unfold custom_objects.sparsemax; simpl.
        apply Forall_map, Forall_forall. intros r _.
        split; [apply sparsemax_row_unit | apply sparsemax_row_sum_le]. }
      assert (HN : 0 < INR (TabNet.num_decision_steps self - 1))
        by (apply lt_0_INR; lia).
      rewrite S_INR. unfold Rdiv in *.
      assert (Hinv : 0 < / INR (TabNet.num_decision_steps self - 1))
        by now apply Rinv_0_lt_compat.
      nra.
    + destruct Hkeep as (_ & _ & _ & _ & ->).
      rewrite Nat.min_r in IH by lia. rewrite Nat.min_r by lia. exact IH.
Qed.

Lemma call_pass_state self inputs training out ent self' :
  TabNet.call self inputs training = Ok ((out, ent), self') ->
  exists features st,
    pass_state self inputs training (TabNet.num_decision_steps self) features st /\
    out = TabNet.output_aggregated st /\ ent = TabNet.total_entropy st /\
    self' = TabNet.model st.
Proof.
  intros H. unfold TabNet.call in H.
  inv_bind H. destruct r as [features self1].
  inv_bind H. injection H as <- <- <-.
  destruct (normalized_features_ok _ _ _ _ _ E) as (_ & SC & _).
  destruct SC as (_ & _ & _ & EN & _).
  exists features, r. repeat split; trivial.
  exists self1. rewrite EN. repeat split; trivial.
Qed.

(** C4, as amended: the entropy returned by the forward pass is at least
    [- ln (1 + epsilon)]. *)
Theorem total_entropy_lower_bound self inputs training features self1
    out ent self' :
  consistent self ->
  0 < TabNet.epsilon self ->
  TabNet.normalized_features self inputs training = Ok (features, self1) ->
  (0 < nrows features)%nat ->
  TabNet.call self inputs training = Ok ((out, ent), self') ->
  - ln (1 + TabNet.epsilon self) <= ent.
Proof.
  intros C He Hn HB Hcall.
  destruct (call_pass_state _ _ _ _ _ _ Hcall) as (features' & st & Hst & _ & -> & _).
  assert (features' = features) as ->.
  { destruct Hst as (s & Hn' & _). congruence. }
  pose proof (entropy_invariant _ _ _ _ _ _ C He HB Hst) as Hinv.
  assert (HL : 0 < ln (1 + TabNet.epsilon self)).
  { rewrite <- ln_1. apply ln_increasing; lra. }
  rewrite Nat.min_r in Hinv by lia.
  destruct (TabNet.num_decision_steps self - 1)%nat as [|m] eqn:Em.
  - change (INR 0) with 0 in Hinv. lra.
  - assert (0 < INR (S m)) by (apply lt_0_INR; lia).
    replace (- INR (S m) * (ln (1 + TabNet.epsilon self) / INR (S m)))
      with (- ln (1 + TabNet.epsilon self)) in Hinv by (field; lra).
    exact Hinv.
Qed.


(** C6: a step that is not the last multiplies every budget entry by
    [relaxation_factor - mask]; the last step leaves the budget. *)
Theorem budget_update self inputs training ni features st st' :
  consistent self ->
  pass_state self inputs training ni features st ->
  pass_state self inputs training (S ni) features st' ->
  ((ni < TabNet.num_decision_steps self - 1)%nat ->
   forall i j, (i < nrows features)%nat -> (j < TabNet.num_features self)%nat ->
     let budget := get (TabNet.complemantary_aggregated_mask_values st) i j in
     let budget' := get (TabNet.complemantary_aggregated_mask_values st') i j in
     let mask := get (TabNet.mask_values st') i j in
     budget' = budget * (TabNet.relaxation_factor self - mask) /\
     (mask = 1 -> budget' = budget * (TabNet.relaxation_factor self - 1)) /\
     (mask = 0 -> budget' = budget * TabNet.relaxation_factor self)) /\
  (ni = (TabNet.num_decision_steps self - 1)%nat ->
   TabNet.complemantary_aggregated_mask_values st'
   = TabNet.complemantary_aggregated_mask_values st).
Proof.
  intros C Hst Hst'.
  destruct (pass_step_cases _ _ _ _ _ _ _ C Hst Hst')
    as (_ & Sh & Sh' & f4 & self1 & SC & _ & _ & _ & _ & _ & _ & Hcases).
  destruct Hcases as [[Hlt Hup] | [-> Hkeep]]; split; try lia.
  - intros _ i j Hi Hj. cbv zeta.
    pose proof (mask_update_budget _ _ _ _ _ _ _ SC Sh Sh' Hup i j Hi Hj) as E.
    split; [exact E|]. split; intros Hm; rewrite E, Hm; ring.
  - intros _. apply Hkeep.
Qed.

Lemma pass_state_le self inputs training k j features st :
  pass_state self inputs training k features st -> (j <= k)%nat ->
  exists st', pass_state self inputs training j features st'.
Proof.
  revert st. induction k as [|k IH]; intros st Hst Hj.
  - replace j with 0%nat by lia. eauto.
  - destruct (Nat.eq_dec j (S k)) as [->|Hne]; [eauto|].
    destruct (pass_state_pred _ _ _ _ _ _ Hst) as (st0 & Hst0).
    apply (IH st0 Hst0). lia.
Qed.

(** C7: the features fed to the feature transformer at step [ni + 1] are
    the mask of step [ni] times the normalised input features. *)
Theorem masked_features_from_input self inputs training ni features st st2 :
  consistent self ->
  pass_state self inputs training (S ni) features st ->
  pass_state self inputs training (S (S ni)) features st2 ->
  tf.multiply (TabNet.mask_values st) features
    = Ok (TabNet.masked_features st) /\
  (exists f4 self1,
      TabNet.feature_transformer (TabNet.model st) (TabNet.masked_features st)
        training = Ok (f4, self1)) /\
  (ncols features = TabNet.num_features self ->
   forall i j, (i < nrows features)%nat -> (j < TabNet.num_features self)%nat ->
     get (TabNet.masked_features st) i j
     = get (TabNet.mask_values st) i j * get features i j).
Proof.
  intros C Hst Hst2.
  destruct (pass_state_pred _ _ _ _ _ _ Hst) as (st0 & Hst0).
  destruct (pass_step_cases _ _ _ _ _ _ _ C Hst0 Hst)
    as (Wf & _ & Sh & f4 & self1 & _ & _ & _ & _ & _ & _ & _ & Hcases).
  destruct (pass_step_cases _ _ _ _ _ _ _ C Hst Hst2)
    as (_ & _ & _ & f4' & self1' & _ & _ & Hft & _).
  assert (Hle : (S (S ni) <= TabNet.num_decision_steps self)%nat)
    by (destruct Hst2 as (_ & _ & Hle & _); exact Hle).
  destruct Hcases as [[_ Hup] | [-> _]]; [|lia].
  destruct Hup as (raw & coef & scaled & ent & _ & _ & _ & _ & _ & _ & Hmf & _).
  split; [exact Hmf|]. split; [eauto|].
  intros Hc i j Hi Hj.
  destruct Sh as (_ & _ & _ & _ & Wk & Rk & Ck & _).
  apply (multiply_get _ _ _ i j Wk Wf); trivial; congruence.
Qed.

Lemma transform_chain_inv (self self' : TabNet.t) (x f4 : Tensor)
    (training : option bool) :
  spec_transform_chain self x training = Ok (f4, self') ->
  exists y1 y2 y3 y4 b1 b2 b3 b4,
    let n := TabNet.feature_dim self in
    let out1 := spec_GLU n y1 in
    let out2 := spec_residual (spec_GLU n y2) out1 in
    let out3 := spec_residual (spec_GLU n y3) out2 in
    let out4 := spec_residual (spec_GLU n y4) out3 in
    TransformBlock.call (TabNet.transform_f1 self) x training = Ok (y1, b1) /\
    TransformBlock.call (TabNet.transform_f2 self) out1 training = Ok (y2, b2) /\
    TransformBlock.call (TabNet.transform_f3 self) out2 training = Ok (y3, b3) /\
    TransformBlock.call (TabNet.transform_f4 self) out3 training = Ok (y4, b4) /\
    f4 = out4 /\ self' = TabNet.set_transform_f self b1 b2 b3 b4.
Proof.
  intros H. unfold spec_transform_chain in H.
  inv_bind H. destruct r as [y1 b1].
  inv_bind H. destruct r as [y2 b2].
  inv_bind H. destruct r as [y3 b3].
  inv_bind H. destruct r as [y4 b4].
  injection H as <- <-.
  exists y1, y2, y3, y4, b1, b2, b3, b4. cbv zeta. repeat split; trivial.
Qed.

(** A block is the projection followed by the batch normalisation. *)
Lemma TransformBlock_call_inv (b b' : TransformBlock.t) (u y : Tensor)
    (training : option bool) :
  TransformBlock.call b u training = Ok (y, b') ->
  exists v d' n',
    Dense_call (TransformBlock.transform b) u = Ok (v, d') /\
    BatchNormalization_call (TransformBlock.bn b) v training = Ok (y, n').
Proof.
  intros H. unfold TransformBlock.call in H.
  inv_bind H. destruct r as [v d'].
  inv_bind H. destruct r as [w n'].
  injection H as <- _. exists v, d', n'. split; assumption.
Qed.

(** C8: the feature transformer of every decision step returns the output
    of the chain of the model's four blocks, each a projection to width
    [2 * feature_dim] followed by batch normalisation, with a gated linear
    unit after each and a scaled residual connection from the second block
    on; that output feeds the decision aggregation and, at a step that is
    not the last, the mask generation; the blocks the step leaves in the
    model are those it has called. *)
Theorem transform_chain_composition self inputs training ni features st st' :
  consistent self ->
  pass_state self inputs training ni features st ->
  pass_state self inputs training (S ni) features st' ->
  (forall (b b' : TransformBlock.t) (u y : Tensor),
      TransformBlock.call b u training = Ok (y, b') ->
      exists v d' n',
        Dense_call (TransformBlock.transform b) u = Ok (v, d') /\
        BatchNormalization_call (TransformBlock.bn b) v training = Ok (y, n')) /\
  exists y1 y2 y3 y4 b1 b2 b3 b4 self1,
    let n := TabNet.feature_dim self in
    let x := TabNet.masked_features st in
    let out1 := spec_GLU n y1 in
    let out2 := spec_residual (spec_GLU n y2) out1 in
    let out3 := spec_residual (spec_GLU n y3) out2 in
    let out4 := spec_residual (spec_GLU n y4) out3 in
    TransformBlock.call (TabNet.transform_f1 (TabNet.model st)) x training
      = Ok (y1, b1) /\
    TransformBlock.call (TabNet.transform_f2 (TabNet.model st)) out1 training
      = Ok (y2, b2) /\
    TransformBlock.call (TabNet.transform_f3 (TabNet.model st)) out2 training
      = Ok (y3, b3) /\
    TransformBlock.call (TabNet.transform_f4 (TabNet.model st)) out3 training
      = Ok (y4, b4) /\
    (ncols y1 = 2 * n /\ ncols y2 = 2 * n /\ ncols y3 = 2 * n /\
     ncols y4 = 2 * n)%nat /\
    TabNet.feature_transformer (TabNet.model st) x training = Ok (out4, self1) /\
    self1 = TabNet.set_transform_f (TabNet.model st) b1 b2 b3 b4 /\
    (well_shaped out4 /\ nrows out4 = nrows features /\ ncols out4 = n) /\
    TabNet.aggregate self1 st out4 ni
      = Ok (TabNet.output_aggregated st', TabNet.aggregated_mask_values st') /\
    ((ni < TabNet.num_decision_steps self - 1)%nat ->
     exists raw coef scaled,
       TransformBlock.call (TabNet.transform_coef self1)
         (tf.slice_from (TabNet.output_dim self) out4) training
         = Ok (raw, coef) /\
       tf.multiply raw (TabNet.complemantary_aggregated_mask_values st)
         = Ok scaled /\
       TabNet.mask_values st' = custom_objects.sparsemax scaled) /\
    TabNet.transform_f1 (TabNet.model st') = b1 /\
    TabNet.transform_f2 (TabNet.model st') = b2 /\
    TabNet.transform_f3 (TabNet.model st') = b3 /\
    TabNet.transform_f4 (TabNet.model st') = b4.
Proof.
  intros C Hst Hst'.
  split; [intros b b' u y; apply TransformBlock_call_inv|].
  destruct (pass_step_cases _ _ _ _ _ _ _ C Hst Hst')
    as (_ & Sh & _ & f4 & self1 & SC1 & _ & Hft & Wf4 & Rf4 & Cf4 & Hagg & Hcases).
  destruct Sh as (SC & Cm & Wm & Rm & _).
  pose proof Hft as Hft0.
  rewrite feature_transformer_chain in Hft by assumption.
  pose proof Hft as Hinv. apply transform_chain_inv in Hinv.
  destruct Hinv as (y1 & y2 & y3 & y4 & b1 & b2 & b3 & b4 & Hinv).
  cbv zeta in Hinv. destruct Hinv as (E1 & E2 & E3 & E4 & Ef4 & Eself1).
  destruct SC as (_ & Efd & _). rewrite <- Efd in *.
  set (n := TabNet.feature_dim self) in *.
  pose proof Cm as (C1 & C2 & C3 & C4 & _). rewrite <- Efd in C1, C2, C3, C4.
  fold n in C1, C2, C3, C4.
  destruct (TransformBlock_call_shape _ _ _ _ _ Wm E1) as (W1 & R1 & N1 & _).
  rewrite C1 in N1.
  destruct (GLU_shape y1 n W1 N1) as (Wo1 & Ro1 & No1).
  destruct (TransformBlock_call_shape _ _ _ _ _ Wo1 E2) as (W2 & R2 & N2 & _).
  rewrite C2 in N2.
  destruct (GLU_shape y2 n W2 N2) as (Wg2 & Rg2 & Ng2).
  destruct (residual_shape (spec_GLU n y2) (spec_GLU n y1)) as (Wo2 & Ro2 & No2);
    trivial; try congruence.
  destruct (TransformBlock_call_shape _ _ _ _ _ Wo2 E3) as (W3 & R3 & N3 & _).
  rewrite C3 in N3.
  destruct (GLU_shape y3 n W3 N3) as (Wg3 & Rg3 & Ng3).
  destruct (residual_shape (spec_GLU n y3)
              (spec_residual (spec_GLU n y2) (spec_GLU n y1)))
    as (Wo3 & Ro3 & No3); trivial; try congruence.
  destruct (TransformBlock_call_shape _ _ _ _ _ Wo3 E4) as (W4 & R4 & N4 & _).
  rewrite C4 in N4.
  exists y1, y2, y3, y4, b1, b2, b3, b4, self1.
  cbv zeta. repeat (split; [assumption|]).
  split; [repeat split; assumption|].
  rewrite <- Ef4.
  split; [exact Hft0|]. split; [exact Eself1|].
  split; [repeat split; assumption|]. split; [exact Hagg|].
  destruct SC1 as (_ & _ & Eod & EN & _).
  split.
  - intros Hlt. destruct Hcases as [[_ Hup] | [Hge _]]; [|lia].
    destruct Hup as (raw & coef & scaled & ent & Hraw & Hscaled & Hmask & _).
    exists raw, coef, scaled. rewrite Eod. repeat split; assumption.
  - destruct Hcases as [[_ Hup] | [_ Hkeep]].
    + destruct Hup as (raw & coef & scaled & ent & _ & _ & _ & _ & _ & _ & _ & ->).
      rewrite Eself1. repeat split.
    + destruct Hkeep as (-> & _). rewrite Eself1. repeat split.
Qed.

(** C9, as amended: with at least two decision steps and a feature
    dimension of at least two, a forward pass whose output dimension
    exceeds the feature dimension raises. *)
Theorem wide_output_raises self inputs training :
  consistent self ->
  (2 <= TabNet.num_decision_steps self)%nat ->
  (2 <= TabNet.feature_dim self)%nat ->
  (TabNet.feature_dim self < TabNet.output_dim self)%nat ->
  exists e, TabNet.call self inputs training = Raise e.
Proof.
  intros C HN Hfd Hod.
  destruct (TabNet.call self inputs training) as [[[out ent] self']|e] eqn:Hcall;
    [exfalso | eauto].
  destruct (call_pass_state _ _ _ _ _ _ Hcall) as (features & st & Hst & _).
  destruct (pass_state_le _ _ _ _ 2%nat _ _ Hst HN) as (st2 & Hst2).
  destruct (pass_state_pred _ _ _ _ _ _ Hst2) as (st1 & Hst1).
  destruct (pass_state_pred _ _ _ _ _ _ Hst1) as (st0 & Hst0).
  destruct (pass_step_cases _ _ _ _ _ _ _ C Hst0 Hst1)
    as (_ & _ & _ & f4 & s1 & _ & _ & _ & _ & _ & _ & Hagg0 & _).
  destruct (pass_step_cases _ _ _ _ _ _ _ C Hst1 Hst2)
    as (_ & _ & _ & f4' & s1' & SC & _ & _ & W4 & _ & C4 & Hagg1 & _).
  unfold TabNet.aggregate in Hagg0. cbn [Nat.ltb Nat.leb] in Hagg0.
  injection Hagg0 as Hoa _.
  apply pass_state_0 in Hst0. destruct Hst0 as (self1 & SC1 & ->).
  cbn [TabNet.initial TabNet.output_aggregated] in Hoa.
  unfold TabNet.aggregate in Hagg1. cbn [Nat.ltb Nat.leb] in Hagg1.
  inv_bind Hagg1. clear Hagg1.
  apply broadcast_shape in E. destruct E as (_ & _ & E).
  rewrite <- Hoa in E. cbn [ncols tf.zeros tf.nn.relu tf.pointwise tf.slice_to] in E.
  destruct SC as (_ & _ & Eod & _). destruct SC1 as (_ & _ & Eod1 & _).
  rewrite C4, <- Eod, <- Eod1 in E.
  rewrite Nat.min_r in E by lia.
  unfold tf.broadcast_dim in E.
  destruct (Nat.eqb_spec (TabNet.output_dim self) (TabNet.feature_dim self)); [lia|].
  destruct (Nat.eqb_spec (TabNet.output_dim self) 1); [lia|].
  destruct (Nat.eqb_spec (TabNet.feature_dim self) 1); [lia|discriminate].
Qed.

(** C10: a head returns its projection only, and stores the aggregated
    output and the entropy of the core in its attributes [activations]
    and [total_entropy], whatever these held before. *)
Theorem heads_store_core_outputs :
  (forall (self self' : TabNetClassification.t) inputs training out,
      TabNetClassification.call self inputs training = Ok (out, self') <->
      exists agg ent tabnet' clf',
        TabNet.call (TabNetClassification.tabnet self) inputs training
          = Ok ((agg, ent), tabnet') /\
        Dense_call (TabNetClassification.clf self) agg = Ok (out, clf') /\
        self' = {| TabNetClassification.num_classes :=
                     TabNetClassification.num_classes self;
                   TabNetClassification.tabnet := tabnet';
                   TabNetClassification.clf := clf';
                   TabNetClassification.activations := Some agg;
                   TabNetClassification.total_entropy := Some ent |}) /\
  (forall (self self' : TabNetRegression.t) inputs training out,
      TabNetRegression.call self inputs training = Ok (out, self') <->
      exists agg ent tabnet' regressor',
        TabNet.call (TabNetRegression.tabnet self) inputs training
          = Ok ((agg, ent), tabnet') /\
        Dense_call (TabNetRegression.regressor self) agg
          = Ok (out, regressor') /\
        self' = {| TabNetRegression.num_regressors :=
                     TabNetRegression.num_regressors self;
                   TabNetRegression.tabnet := tabnet';
                   TabNetRegression.regressor := regressor';
                   TabNetRegression.activations := Some agg;
                   TabNetRegression.total_entropy := Some ent |}).
Proof.
  split; intros self self' inputs training out; split.
  - unfold TabNetClassification.call. intros H.
    inv_bind H. destruct r as [[agg ent] tabnet'].
    inv_bind H. destruct r as [o clf']. injection H as <- <-.
    exists agg, ent, tabnet', clf'. repeat split; trivial.
  - intros (agg & ent & tabnet' & clf' & H1 & H2 & ->).
    unfold TabNetClassification.call. rewrite H1. cbn [bind].
    rewrite H2. reflexivity.
  - unfold TabNetRegression.call. intros H.
    inv_bind H. destruct r as [[agg ent] tabnet'].
    inv_bind H. destruct r as [o reg']. injection H as <- <-.
    exists agg, ent, tabnet', reg'. repeat split; trivial.
  - intros (agg & ent & tabnet' & reg' & H1 & H2 & ->).
    unfold TabNetRegression.call. rewrite H1. cbn [bind].
    rewrite H2. reflexivity.
Qed.

End Properties.

(** * A concrete model

    Numeric feature columns passed through as they are, [Dense] layers whose
    kernel is zero, and [BatchNormalization] layers that are the identity
    (moving mean 0, moving variance [1 - epsilon], gamma 1, beta 0, frozen
    statistics). *)

Module Example.

Lemma rows_length_check (n : nat) (x : list (list R)) :
  forallb (fun r => (length r =? n)%nat) x = true ->
  well_shaped (mkTensor n x).
Proof.
  intros H. unfold well_shaped; simpl. rewrite forallb_forall in H.
  apply Forall_forall. intros r Hr. now apply Nat.eqb_eq, H.
Qed.

#[refine] Instance frozen : Keras := {|
  FeatureColumn := nat;
  Inputs := list (list R);
  DenseFeatures := nat;
  Dense := nat;
  BatchNormalization := unit;
  DenseFeatures_init := fun cols => length cols;
  Dense_init := fun n _ => n;
  BatchNormalization_init := fun _ _ => tt;
  units := fun d => d;
  DenseFeatures_call := fun n x =>
    if forallb (fun r => (length r =? n)%nat) x
    then Ok (mkTensor n x) else Raise LayerError;
  Dense_call := fun d x => Ok (tf.zeros (nrows x) d, d);
  BatchNormalization_call := fun b x _ => Ok (x, b)
|}.
Proof.
  - reflexivity.
  - intros n x t H.
    destruct (forallb _ x) eqn:E; [|discriminate].
    injection H as <-. now apply rows_length_check.
  - intros d x y d' _ H. injection H as <- <-.
    destruct (const_shape 0 (nrows x) d) as [H1 H2].
    unfold tf.zeros. repeat split; trivial.
  - intros b x training y b' Hx H. injection H as <- <-. repeat split; trivial.
Defined.

(** Four features, feature dimension 2, output dimension 1, three decision
    steps, and the default relaxation factor and epsilon; one sample of
    ones. *)
Definition net : TabNet.t :=
  TabNet.init [0; 1; 2; 3]%nat 2 None 1 3 1.5 0.98 None 1e-5.

Definition inputs : list (list R) := [[1; 1; 1; 1]].

Definition features : Tensor := mkTensor 4 inputs.

Definition state (k : nat) : TabNet.locals :=
  match TabNet.after_steps net features None k with
  | Ok st => st
  | Raise _ => TabNet.initial net features
  end.

(** One feature and two decision steps. *)
Definition net1 : TabNet.t :=
  TabNet.init [0]%nat 1 None 1 2 1.5 0.98 None 1e-5.

Definition inputs1 : list (list R) := [[1]].

Definition features1 : Tensor := mkTensor 1 inputs1.

Definition state1 (k : nat) : TabNet.locals :=
  match TabNet.after_steps net1 features1 None k with
  | Ok st => st
  | Raise _ => TabNet.initial net1 features1
  end.

(** One decision step, and an output dimension above twice the feature
    dimension. *)
Definition net9 : TabNet.t :=
  TabNet.init [0; 1; 2; 3]%nat 2 None 5 1 1.5 0.98 None 1e-5.

Definition chain9 : Tensor * TabNet.t :=
  match TabNet.feature_transformer net9 features None with
  | Ok r => r
  | Raise _ => (features, net9)
  end.

(** The same with two decision steps. *)
Definition net9b : TabNet.t :=
  TabNet.init [0; 1; 2; 3]%nat 2 None 5 2 1.5 0.98 None 1e-5.

Lemma normalized : TabNet.normalized_features net inputs None = Ok (features, net).
Proof. reflexivity. Qed.

Lemma after_1 : TabNet.after_steps net features None 1 = Ok (state 1).
Proof. reflexivity. Qed.

Lemma after_2 : TabNet.after_steps net features None 2 = Ok (state 2).
Proof. reflexivity. Qed.

Lemma after_3 : TabNet.after_steps net features None 3 = Ok (state 3).
Proof. reflexivity. Qed.

Lemma net_consistent : consistent net.
Proof. apply init_consistent. Qed.

Lemma pass (k : nat) :
  (k <= 3)%nat -> TabNet.after_steps net features None k = Ok (state k) ->
  pass_state net inputs None k features (state k).
Proof.
  intros Hk H. exists net. split; [exact normalized|]. split; [exact Hk | exact H].
Qed.

Lemma pass_0 : pass_state net inputs None 0 features (state 0).
Proof. apply pass; [lia | reflexivity]. Qed.

Lemma pass_1 : pass_state net inputs None 1 features (state 1).
Proof. apply pass; [lia | exact after_1]. Qed.

Lemma pass_2 : pass_state net inputs None 2 features (state 2).
Proof. apply pass; [lia | exact after_2]. Qed.

Lemma pass_3 : pass_state net inputs None 3 features (state 3).
Proof. apply pass; [lia | exact after_3]. Qed.

Lemma call_net :
  TabNet.call net inputs None
  = Ok ((TabNet.output_aggregated (state 3), TabNet.total_entropy (state 3)),
        TabNet.model (state 3)).
Proof.
  unfold TabNet.call. rewrite normalized. cbn [bind].
  change (TabNet.num_decision_steps net) with 3%nat.
  rewrite after_3. reflexivity.
Qed.

Lemma frozen_block_zero (b b' : TransformBlock.t) (x y : Tensor)
    (training : option bool) :
  TransformBlock.call b x training = Ok (y, b') -> entries (fun v => v = 0) y.
Proof.
  unfold TransformBlock.call. cbn. intros [= <- <-].
  apply const_entries. reflexivity.
Qed.

(** With zero kernels every mask is uniform, so each budget entry is
    multiplied by [1.5 - 1/4] at every step but the last. *)
Lemma frozen_budget_step (ni : nat) (st st' : TabNet.locals) :
  (ni < 2)%nat ->
  pass_state net inputs None ni features st ->
  pass_state net inputs None (S ni) features st' ->
  get (TabNet.complemantary_aggregated_mask_values st') 0 0
  = get (TabNet.complemantary_aggregated_mask_values st) 0 0 * (1.5 - 1 / 4).
Proof.
  intros Hni Hst Hst'.
  destruct (pass_step_cases _ _ _ _ _ _ _ net_consistent Hst Hst')
    as (_ & Sh & Sh' & f4 & self1 & SC & _ & _ & _ & _ & _ & _ & Hcases).
  destruct Hcases as [[_ Hup] | [Hge _]]; [|cbv in Hge; lia].
  rewrite (mask_update_budget _ _ _ _ _ _ _ SC Sh Sh' Hup 0 0)
    by (cbv; lia).
  destruct Hup as (raw & coef & scaled & ent & Hraw & Hscaled & Hmask & _).
  destruct Sh as (_ & _ & _ & _ & _ & _ & _ & Wb & Rb & Cb).
  destruct Sh' as (_ & _ & _ & _ & Wk & Rk & Ck & _).
  assert (Hz : entries (fun v => v = 0) scaled).
  { pose proof (frozen_block_zero _ _ _ _ _ Hraw) as Hr0.
    unfold TransformBlock.call in Hraw. cbn in Hraw. injection Hraw as <- _.
    eapply (broadcast_entries (fun v => v = 0) (fun _ => True));
      [| exact Wb | exact Hr0 | | | exact Hscaled].
    - apply const_shape.
    - unfold entries. apply Forall_forall. intros r _.
      apply Forall_forall. trivial.
    - simpl. intros x y -> _. ring. }
  assert (Hm : get (TabNet.mask_values st') 0 0 = 1 / INR 4).
  { apply (get_entries (fun m => m = 1 / INR 4)); trivial;
      try (rewrite ?Rk, ?Ck; cbv; lia).
    rewrite Hmask in *. simpl in Ck.
    replace 4%nat with (ncols scaled) by exact Ck.
    apply sparsemax_zero; trivial.
    - now apply broadcast_shape in Hscaled.
    - lia. }
  rewrite Hm. change (TabNet.relaxation_factor net) with 1.5.
  change (INR 4) with (1 + 1 + 1 + 1). lra.
Qed.

(** After two decision steps a budget entry of [net] is [1.25 * 1.25]. *)
Lemma budget_after_two_steps (st : TabNet.locals) :
  pass_state net inputs None 2 features st ->
  ~ entries (fun b => 0 <= b <= 1.5)
      (TabNet.complemantary_aggregated_mask_values st).
Proof.
  intros P2 Hb.
  destruct (pass_state_pred _ _ _ _ _ _ P2) as (st1 & P1).
  destruct (pass_state_pred _ _ _ _ _ _ P1) as (st0 & P0).
  pose proof (frozen_budget_step 0 _ _ ltac:(lia) P0 P1) as E1.
  pose proof (frozen_budget_step 1 _ _ ltac:(lia) P1 P2) as E2.
  destruct (pass_state_0 _ _ _ _ _ P0) as (s0 & SC0 & ->).
  destruct SC0 as (Enf0 & _).
  cbn [TabNet.initial TabNet.complemantary_aggregated_mask_values] in E1.
  rewrite <- Enf0 in E1.
  change (get (tf.ones (nrows features) (TabNet.num_features net)) 0 0)
    with 1 in E1.
  destruct (pass_state_shaped _ _ _ _ _ _ net_consistent P2)
    as (_ & s1 & SC & Sh).
  destruct Sh as (_ & _ & _ & _ & _ & _ & _ & Wb & Rb & Cb).
  destruct SC as (Enf & _).
  assert (H := get_entries _ _ 0 0 Wb Hb).
  rewrite Rb, Cb, <- Enf in H.
  specialize (H ltac:(cbv; lia) ltac:(cbv; lia)).
  cbv beta in H. rewrite E2, E1 in H. lra.
Qed.

(** With one feature the mask is [1] and the entropy of the pass is
    [- ln (1 + epsilon)]. *)
Lemma single_feature_entropy (st0 st1 st2 : TabNet.locals) :
  pass_state net1 inputs1 None 0 features1 st0 ->
  pass_state net1 inputs1 None 1 features1 st1 ->
  pass_state net1 inputs1 None 2 features1 st2 ->
  Forall simplex (rows (TabNet.mask_values st1)) /\
  TabNet.total_entropy st2 < 0.
Proof.
  intros P0 P1 P2.
  assert (C : consistent net1) by apply init_consistent.
  destruct (pass_step_cases _ _ _ _ _ _ _ C P0 P1)
    as (_ & _ & Sh1 & f4 & s1 & SC & _ & _ & _ & _ & _ & _ & Hc1).
  destruct (pass_step_cases _ _ _ _ _ _ _ C P1 P2)
    as (_ & _ & _ & f4' & s1' & _ & _ & _ & _ & _ & _ & _ & Hc2).
  destruct Hc1 as [[_ Hup] | [Hge _]]; [|cbv in Hge; lia].
  destruct Hc2 as [[Hlt _] | [_ Hkeep]]; [cbv in Hlt; lia|].
  destruct Hkeep as (_ & _ & _ & _ & ->).
  destruct Hup as (raw & coef & scaled & ent & _ & Hscaled & Hmask & _ & Hent
                   & Hte & _).
  destruct Sh1 as (_ & _ & _ & _ & Wk & Rk & Ck & _).
  apply broadcast_shape in Hscaled. destruct Hscaled as (Wsc & _).
  assert (Hs : Forall simplex (rows (TabNet.mask_values st1))).
  { rewrite Hmask. apply sparsemax_rows_simplex; [exact Wsc|].
    rewrite Hmask in Ck. cbn [custom_objects.sparsemax ncols] in Ck.
    rewrite Ck. cbv; lia. }
  split; [exact Hs|].
  rewrite mask_entropy_term in Hent by exact Wk. injection Hent as <-.
  rewrite Hte. unfold spec_entropy_term, nrows.
  rewrite (single_simplex _ Wk Rk Ck Hs).
  destruct SC as (_ & _ & _ & <- & _ & <-).
  destruct (pass_state_0 _ _ _ _ _ P0) as (s0 & _ & ->).
  cbn [TabNet.initial TabNet.total_entropy].
  change (TabNet.epsilon net1) with 1e-5.
  change (INR (TabNet.num_decision_steps net1 - 1)) with 1.
  cbn [map rsum fold_right length]. change (INR 1) with 1.
  assert (0 < ln (1 + 1e-5)) by (rewrite <- ln_1; apply ln_increasing; lra).
  lra.
Qed.

Lemma pass1 (k : nat) :
  (k <= 2)%nat -> TabNet.after_steps net1 features1 None k = Ok (state1 k) ->
  pass_state net1 inputs1 None k features1 (state1 k).
Proof.
  intros Hk H. exists net1. split; [reflexivity|]. split; [exact Hk | exact H].
Qed.

Lemma call_net1 :
  TabNet.call net1 inputs1 None
  = Ok ((TabNet.output_aggregated (state1 2), TabNet.total_entropy (state1 2)),
        TabNet.model (state1 2)).
Proof. reflexivity. Qed.

End Example.

(** * The claims on the concrete model *)

Import Example.

Lemma mask_rows_on_simplex_witness :
  Forall simplex (rows (TabNet.mask_values (state 1))).
Proof.
  apply (mask_rows_on_simplex net inputs None 0 features (state 1)).
  - exact net_consistent.
  - cbv; lia.
  - cbv; lia.
  - exact pass_1.
Defined.

Lemma single_step_returns_zero_witness :
  TabNet.call net9 inputs None = Ok ((tf.zeros 1 5, 0), snd chain9).
Proof.
  apply (single_step_returns_zero net9 inputs None features net9
           (fst chain9) (snd chain9)); reflexivity.
Defined.

(** C3, counterexample: with the default relaxation factor 1.5, four
    features and uniform masks, a budget entry is [1.5625] after two
    decision steps. *)
Lemma budget_exceeds_relaxation_factor :
  pass_state net inputs None 2 features (state 2) /\
  1 <= TabNet.relaxation_factor net /\
  ~ entries (fun b => 0 <= b <= TabNet.relaxation_factor net)
      (TabNet.complemantary_aggregated_mask_values (state 2)).
Proof.
  split; [exact pass_2|].
  change (TabNet.relaxation_factor net) with 1.5. split; [lra|].
  exact (budget_after_two_steps (state 2) pass_2).
Qed.

Lemma budget_bounds_witness :
  entries (fun b => 0 <= b <= 1.5 ^ 2)
    (TabNet.complemantary_aggregated_mask_values (state 2)).
Proof.
  apply (budget_bounds net inputs None 2 features (state 2)).
  - exact net_consistent.
  - cbv [net TabNet.init TabNet.relaxation_factor]; lra.
  - exact pass_2.
Defined.

(** C4, counterexample: with a single feature every mask is [1], and the
    entropy returned is [- ln (1 + epsilon)], which is negative. *)
Lemma total_entropy_negative :
  exists out ent self',
    TabNet.call net1 inputs1 None = Ok ((out, ent), self') /\
    0 < TabNet.epsilon net1 /\
    Forall simplex (rows (TabNet.mask_values (state1 1))) /\
    ent < 0.
Proof.
  exists (TabNet.output_aggregated (state1 2)), (TabNet.total_entropy (state1 2)),
    (TabNet.model (state1 2)).
  split; [exact call_net1|].
  change (TabNet.epsilon net1) with 1e-5. split; [lra|].
  apply (single_feature_entropy (state1 0) (state1 1) (state1 2));
    apply pass1; solve [lia | reflexivity].
Qed.

Lemma total_entropy_lower_bound_witness :
  - ln (1 + 1e-5) <= TabNet.total_entropy (state 3).
Proof.
  apply (total_entropy_lower_bound net inputs None features net
           (TabNet.output_aggregated (state 3)) (TabNet.total_entropy (state 3))
           (TabNet.model (state 3))).
  - exact net_consistent.
  - cbv [net TabNet.init TabNet.epsilon]; lra.
  - exact normalized.
  - unfold features, inputs, nrows; simpl; lia.
  - exact call_net.
Defined.


Lemma budget_update_witness :
  get (TabNet.complemantary_aggregated_mask_values (state 1)) 0 0
  = get (TabNet.complemantary_aggregated_mask_values (state 0)) 0 0
    * (1.5 - get (TabNet.mask_values (state 1)) 0 0) /\
  TabNet.complemantary_aggregated_mask_values (state 3)
  = TabNet.complemantary_aggregated_mask_values (state 2).
Proof.
  split.
  - apply (proj1 (budget_update net inputs None 0 features (state 0) (state 1)
                    net_consistent pass_0 pass_1)); cbv; lia.
  - apply (budget_update net inputs None 2 features (state 2) (state 3)
             net_consistent pass_2 pass_3). reflexivity.
Defined.

Lemma masked_features_from_input_witness :
  tf.multiply (TabNet.mask_values (state 1)) features
  = Ok (TabNet.masked_features (state 1)).
Proof.
  apply (masked_features_from_input net inputs None 0 features (state 1)
           (state 2) net_consistent pass_1 pass_2).
Defined.

Lemma transform_chain_composition_witness :
  exists y1 b1 out4 self1,
    TransformBlock.call (TabNet.transform_f1 (TabNet.model (state 0)))
      (TabNet.masked_features (state 0)) None = Ok (y1, b1) /\
    ncols y1 = 4%nat /\
    TabNet.feature_transformer (TabNet.model (state 0))
      (TabNet.masked_features (state 0)) None = Ok (out4, self1) /\
    TabNet.transform_f1 (TabNet.model (state 1)) = b1.
Proof.
  destruct (transform_chain_composition net inputs None 0 features
              (state 0) (state 1) net_consistent pass_0 pass_1)
    as (_ & y1 & y2 & y3 & y4 & b1 & b2 & b3 & b4 & self1 & H).
  cbv zeta in H.
  destruct H as (E1 & _ & _ & _ & (N1 & _) & Hft & _ & _ & _ & _ & F1 & _).
  eexists y1, b1, _, self1.
  split; [exact E1|]. split; [exact N1|]. split; [exact Hft | exact F1].
Defined.

(** C9, counterexample: with a single decision step the forward pass
    returns although the output dimension 5 exceeds twice the feature
    dimension 2. *)
Lemma wide_output_single_step_returns :
  (2 * TabNet.feature_dim net9 < TabNet.output_dim net9)%nat /\
  exists r, TabNet.call net9 inputs None = Ok r.
Proof.
  split; [cbv; lia|]. eexists. reflexivity.
Qed.

Lemma wide_output_raises_witness :
  exists e, TabNet.call net9b inputs None = Raise e.
Proof.
  apply (wide_output_raises net9b inputs None).
  - apply init_consistent.
  - cbv; lia.
  - cbv; lia.
  - cbv; lia.
Defined.

(** * Further properties of the forward pass *)

Lemma broadcast_dim_one_r (n : nat) : tf.broadcast_dim n 1 = Some n.
Proof.
  unfold tf.broadcast_dim.
  destruct (Nat.eqb_spec n 1) as [->|Hn]; [reflexivity|].
  destruct (Nat.eqb_spec n 1); [lia | reflexivity].
Qed.

Lemma entries_impl (P Q : R -> Prop) (t : Tensor) :
  (forall x, P x -> Q x) -> entries P t -> entries Q t.
Proof.
  intros H. unfold entries. apply Forall_impl. intros r. now apply Forall_impl.
Qed.

Lemma entries_True (t : Tensor) : entries (fun _ => True) t.
Proof.
  unfold entries. apply Forall_forall. intros r _. apply Forall_forall. trivial.
Qed.

Lemma relu_entries (t : Tensor) : entries (fun x => 0 <= x) (tf.nn.relu t).
Proof.
  apply (pointwise_entries (fun _ => True)); [|apply entries_True].
  intros x _. apply Rmax_r.
Qed.

Lemma reduce_sum_keepdims_shape (t : Tensor) :
  well_shaped (tf.reduce_sum_keepdims t) /\
  nrows (tf.reduce_sum_keepdims t) = nrows t /\
  ncols (tf.reduce_sum_keepdims t) = 1%nat.
Proof.
  unfold well_shaped, nrows, tf.reduce_sum_keepdims; simpl.
  rewrite length_map. repeat split.
  apply Forall_map, Forall_forall. reflexivity.
Qed.

Lemma reduce_sum_keepdims_entries (t : Tensor) :
  entries (fun x => 0 <= x) t ->
  entries (fun x => 0 <= x) (tf.reduce_sum_keepdims t).
Proof.
  unfold entries, tf.reduce_sum_keepdims; simpl. intros H.
  apply Forall_map. eapply Forall_impl; [|exact H].
  simpl. intros r Hr. constructor; [|constructor]. now apply rsum_nonneg.
Qed.

Section Aggregation.
Context {K : Keras}.

(** What the decision aggregation of lines 134-145 does when it returns. *)
Lemma aggregate_inv (self1 : TabNet.t) (st : TabNet.locals) (f4 : Tensor)
    (ni : nat) (oa am : Tensor) :
  TabNet.aggregate self1 st f4 ni = Ok (oa, am) ->
  (ni = 0%nat /\ oa = TabNet.output_aggregated st /\
   am = TabNet.aggregated_mask_values st) \/
  ((0 < ni)%nat /\
   let decision_out := tf.nn.relu (tf.slice_to (TabNet.output_dim self1) f4) in
   let scale_agg :=
     tf.pointwise (fun x => x / INR (TabNet.num_decision_steps self1 - 1))
       (tf.reduce_sum_keepdims decision_out) in
   tf.add (TabNet.output_aggregated st) decision_out = Ok oa /\
   exists weighted,
     tf.multiply (TabNet.mask_values st) scale_agg = Ok weighted /\
     tf.add (TabNet.aggregated_mask_values st) weighted = Ok am).
Proof.
  unfold TabNet.aggregate. destruct (Nat.ltb_spec 0 ni) as [Hlt|Hge].
  - intros H. right. split; [exact Hlt|]. cbv zeta.
    inv_bind H. inv_bind H. inv_bind H. injection H as <- <-.
    split; [exact E|]. eauto.
  - intros [= <- <-]. left. repeat split. lia.
Qed.

(** The accumulators and the mask, after any number of decision steps. *)
Definition accumulated (self : TabNet.t) (features : Tensor)
    (st : TabNet.locals) : Prop :=
  well_shaped (TabNet.output_aggregated st) /\
  nrows (TabNet.output_aggregated st) = nrows features /\
  entries (fun x => 0 <= x) (TabNet.output_aggregated st) /\
  ((TabNet.output_dim self <= TabNet.feature_dim self)%nat ->
   ncols (TabNet.output_aggregated st) = TabNet.output_dim self) /\
  well_shaped (TabNet.aggregated_mask_values st) /\
  nrows (TabNet.aggregated_mask_values st) = nrows features /\
  ncols (TabNet.aggregated_mask_values st) = TabNet.num_features self /\
  entries (fun x => 0 <= x) (TabNet.aggregated_mask_values st) /\
  entries (fun m => 0 <= m <= 1) (TabNet.mask_values st).

Lemma add_nonneg_entries (a b c : Tensor) :
  well_shaped a -> well_shaped b ->
  entries (fun x => 0 <= x) a -> entries (fun x => 0 <= x) b ->
  tf.add a b = Ok c -> entries (fun x => 0 <= x) c.
Proof.
  intros Wa Wb Ha Hb H.
  apply (broadcast_entries (fun x => 0 <= x) (fun x => 0 <= x)
           (fun x => 0 <= x) Rplus a b c Wa Wb Ha Hb); [|exact H].
  intros x y Hx Hy. lra.
Qed.

Lemma accumulated_pass self inputs training k features st :
  consistent self ->
  pass_state self inputs training k features st ->
  accumulated self features st.
Proof.
  intros C. revert st. induction k as [|k IH]; intros st Hst.
  - destruct (pass_state_0 _ _ _ _ _ Hst) as (self1 & SC & ->).
    destruct SC as (Enf & _ & Eod & _).
    unfold accumulated.
    cbn [TabNet.initial TabNet.output_aggregated TabNet.aggregated_mask_values
         TabNet.mask_values].
    unfold tf.zeros.
    destruct (const_shape 0 (nrows features) (TabNet.output_dim self1)) as [W1 R1].
    destruct (const_shape 0 (nrows features) (TabNet.num_features self1)) as [W2 R2].
    repeat split; trivial; try (apply const_entries; simpl; lra);
      try apply const_entries; simpl; try lra; try congruence.
  - destruct (pass_state_pred _ _ _ _ _ _ Hst) as (st0 & Hst0).
    specialize (IH st0 Hst0).
    destruct IH as (Woa & Roa & Eoa & Coa & Wam & Ram & Cam & Eam & Emk).
    assert (Hle : (S k <= TabNet.num_decision_steps self)%nat)
      by (destruct Hst as (_ & _ & Hle & _); exact Hle).
    destruct (pass_step_cases _ _ _ _ _ _ _ C Hst0 Hst)
      as (Wf & Sh0 & Sh & f4 & self1 & SC & _ & _ & W4 & R4 & C4 & Hagg & Hcases).
    assert (Hmask : entries (fun m => 0 <= m <= 1) (TabNet.mask_values st)).
    { destruct Hcases as [[_ Hup] | [_ Hkeep]].
      - destruct Hup as (raw & coef & scaled & ent & _ & _ & -> & _).
        apply sparsemax_entries.
      - destruct Hkeep as (_ & _ & -> & _). exact Emk. }
    apply aggregate_inv in Hagg.
    destruct Hagg as [(_ & E1 & E2) | (Hni & Hagg)].
    + unfold accumulated. rewrite E1, E2. repeat split; trivial.
    + cbv zeta in Hagg. destruct Hagg as (Hoa & weighted & Hw & Ham).
      destruct SC as (_ & _ & Eod & EN & _). rewrite <- Eod, <- EN in *.
      set (dec := tf.nn.relu (tf.slice_to (TabNet.output_dim self) f4)) in *.
      destruct (slice_to_shape (TabNet.output_dim self) f4 W4) as (Ws & Rs & Cs).
      destruct (pointwise_shape Rrelu _ Ws) as (Wd & Rd & Cd).
      fold (tf.nn.relu (tf.slice_to (TabNet.output_dim self) f4)) in Wd, Rd, Cd.
      fold dec in Wd, Rd, Cd.
      pose proof (relu_entries (tf.slice_to (TabNet.output_dim self) f4)) as Ed.
      fold dec in Ed.
      destruct (reduce_sum_keepdims_shape dec) as (Wr & Rr & Cr).
      set (scale := tf.pointwise
                      (fun x => x / INR (TabNet.num_decision_steps self - 1))
                      (tf.reduce_sum_keepdims dec)) in *.
      destruct (pointwise_shape
                  (fun x => x / INR (TabNet.num_decision_steps self - 1))
                  _ Wr) as (Wsc & Rsc & Csc).
      fold scale in Wsc, Rsc, Csc.
      assert (Esc : entries (fun x => 0 <= x) scale).
      { unfold scale. eapply pointwise_entries;
          [|apply reduce_sum_keepdims_entries; exact Ed].
        simpl. intros x Hx.
        assert (0 < INR (TabNet.num_decision_steps self - 1))
          by (apply lt_0_INR; lia).
        apply Rmult_le_pos; [exact Hx|]. left. now apply Rinv_0_lt_compat. }
      destruct Sh0 as (_ & _ & _ & _ & Wk & Rk & Ck & _).
      assert (Eweighted : entries (fun x => 0 <= x) weighted).
      { eapply (broadcast_entries (fun m => 0 <= m <= 1) (fun x => 0 <= x));
          [exact Wk | exact Wsc | exact Emk | exact Esc | | exact Hw].
        simpl. intros x y [Hx _] Hy. now apply Rmult_le_pos. }
      pose proof (broadcast_shape _ _ _ _ Hoa) as (Woa' & Roa' & Coa').
      pose proof (broadcast_shape _ _ _ _ Hw) as (Ww & Rw & Cw).
      pose proof (broadcast_shape _ _ _ _ Ham) as (Wam' & Ram' & Cam').
      rewrite Roa, Rd, Rs, R4, broadcast_dim_same in Roa'.
      rewrite Rk, Rsc, Rr, Rd, Rs, R4, broadcast_dim_same in Rw.
      rewrite Ck, Csc, Cr, broadcast_dim_one_r in Cw.
      injection Roa' as Roa'. injection Rw as Rw. injection Cw as Cw.
      rewrite Ram, <- Rw, broadcast_dim_same in Ram'.
      rewrite Cam, <- Cw, broadcast_dim_same in Cam'.
      injection Ram' as Ram'. injection Cam' as Cam'.
      unfold accumulated. repeat split; trivial; try congruence.
      * eapply add_nonneg_entries; [exact Woa | exact Wd | | | exact Hoa]; trivial.
      * intros Hod. rewrite (Coa Hod), Cd, Cs, C4 in Coa'.
        rewrite Nat.min_l, broadcast_dim_same in Coa' by exact Hod.
        congruence.
      * eapply add_nonneg_entries; [exact Wam | exact Ww | | | exact Ham]; trivial.
Qed.
End Aggregation.

Section Further.
Context {K : Keras}.

Lemma call_features self inputs training features self1 out ent self' :
  TabNet.normalized_features self inputs training = Ok (features, self1) ->
  TabNet.call self inputs training = Ok ((out, ent), self') ->
  exists st,
    pass_state self inputs training (TabNet.num_decision_steps self) features st /\
    out = TabNet.output_aggregated st /\ ent = TabNet.total_entropy st /\
    self' = TabNet.model st.
Proof.
  intros Hn Hcall.
  destruct (call_pass_state _ _ _ _ _ _ Hcall) as (f & st & Hst & H).
  assert (f = features) as -> by (destruct Hst as (s & Hn' & _); congruence).
  eauto.
Qed.

(** X1: the aggregated output returned by the forward pass has no negative
    entry. *)
Theorem output_aggregated_nonneg self inputs training out ent self' :
  consistent self ->
  TabNet.call self inputs training = Ok ((out, ent), self') ->
  entries (fun x => 0 <= x) out.
Proof.
  intros C Hcall.
  destruct (call_pass_state _ _ _ _ _ _ Hcall) as (f & st & Hst & -> & _).
  apply (accumulated_pass _ _ _ _ _ _ C Hst).
Qed.

(** X2: the first decision step contributes nothing: after it the
    aggregated output and the aggregated mask are still zero. *)
Theorem first_step_aggregates_nothing self inputs training features st :
  consistent self ->
  pass_state self inputs training 1 features st ->
  TabNet.output_aggregated st
    = tf.zeros (nrows features) (TabNet.output_dim self) /\
  TabNet.aggregated_mask_values st
    = tf.zeros (nrows features) (TabNet.num_features self).
Proof.
  intros C Hst.
  destruct (pass_state_pred _ _ _ _ _ _ Hst) as (st0 & Hst0).
  destruct (pass_step_cases _ _ _ _ _ _ _ C Hst0 Hst)
    as (_ & _ & _ & f4 & self1 & _ & _ & _ & _ & _ & _ & Hagg & _).
  apply aggregate_inv in Hagg. destruct Hagg as [(_ & -> & ->) | (Hni & _)]; [|lia].
  destruct (pass_state_0 _ _ _ _ _ Hst0) as (s & SC & ->).
  destruct SC as (-> & _ & -> & _). split; reflexivity.
Qed.

(** X3: when the output dimension does not exceed the feature dimension,
    the aggregated output returned has shape [batch, output_dim]. *)
Theorem output_aggregated_shape self inputs training features self1
    out ent self' :
  consistent self ->
  (TabNet.output_dim self <= TabNet.feature_dim self)%nat ->
  TabNet.normalized_features self inputs training = Ok (features, self1) ->
  TabNet.call self inputs training = Ok ((out, ent), self') ->
  well_shaped out /\ nrows out = nrows features /\
  ncols out = TabNet.output_dim self.
Proof.
  intros C Hod Hn Hcall.
  destruct (call_features _ _ _ _ _ _ _ _ Hn Hcall) as (st & Hst & -> & _).
  destruct (accumulated_pass _ _ _ _ _ _ C Hst) as (W & R1 & _ & Hc & _).
  repeat split; auto.
Qed.

(** X4: a forward pass of a model built by the constructor returns a model
    with the configuration the constructor was given and with blocks of the
    same widths. *)
Theorem constructed_model_keeps_configuration feature_columns feature_dim
    num_features output_dim num_decision_steps relaxation_factor
    batch_momentum virtual_batch_size lambd_sparsity inputs training r self' :
  TabNet.call
    (TabNet.init feature_columns feature_dim num_features output_dim
       num_decision_steps relaxation_factor batch_momentum virtual_batch_size
       lambd_sparsity) inputs training = Ok (r, self') ->
  consistent self' /\
  TabNet.num_features self'
    = match num_features with
      | Some n => n
      | None => length feature_columns
      end /\
  TabNet.feature_dim self' = feature_dim /\
  TabNet.output_dim self' = output_dim /\
  TabNet.num_decision_steps self' = num_decision_steps /\
  TabNet.relaxation_factor self' = relaxation_factor /\
  TabNet.epsilon self' = lambd_sparsity.
Proof.
  intros Hcall. destruct r as [out ent].
  destruct (call_pass_state _ _ _ _ _ _ Hcall) as (f & st & Hst & _ & _ & ->).
  pose proof (init_consistent feature_columns feature_dim num_features output_dim
                num_decision_steps relaxation_factor batch_momentum
                virtual_batch_size lambd_sparsity) as C.
  destruct (pass_state_shaped _ _ _ _ _ _ C Hst) as (_ & s1 & SC & Sh).
  destruct Sh as (SC' & C' & _).
  pose proof (same_config_trans _ _ _ SC SC') as (E1 & E2 & E3 & E4 & E5 & E6).
  split; [exact C'|].
  rewrite <- E1, <- E2, <- E3, <- E4, <- E5, <- E6. repeat split.
Qed.

(** X5: with at least two decision steps, a forward pass raises when the
    width of the encoded features differs from [num_features] and neither
    of the two is 1. *)
Theorem feature_count_mismatch_raises self inputs training features self1 :
  consistent self ->
  (2 <= TabNet.num_decision_steps self)%nat ->
  TabNet.normalized_features self inputs training = Ok (features, self1) ->
  ncols features <> TabNet.num_features self ->
  ncols features <> 1%nat ->
  TabNet.num_features self <> 1%nat ->
  exists e, TabNet.call self inputs training = Raise e.
Proof.
  intros C HN Hn Hne H1 H2.
  destruct (TabNet.call self inputs training) as [[[out ent] self']|e] eqn:Hcall;
    [exfalso | eauto].
  destruct (call_features _ _ _ _ _ _ _ _ Hn Hcall) as (st & Hst & _).
  destruct (pass_state_le _ _ _ _ 1%nat _ _ Hst ltac:(lia)) as (st1 & Hst1).
  destruct (pass_state_pred _ _ _ _ _ _ Hst1) as (st0 & Hst0).
  destruct (pass_step_cases _ _ _ _ _ _ _ C Hst0 Hst1)
    as (_ & _ & Sh & f4 & s1 & _ & _ & _ & _ & _ & _ & _ & Hcases).
  destruct Hcases as [[_ Hup] | [Hge _]]; [|lia].
  destruct Hup as (raw & coef & scaled & ent0 & _ & _ & _ & _ & _ & _ & Hmf & _).
  destruct Sh as (_ & _ & _ & _ & _ & _ & Ck & _).
  apply broadcast_shape in Hmf. destruct Hmf as (_ & _ & Hc).
  rewrite Ck in Hc. unfold tf.broadcast_dim in Hc.
  destruct (Nat.eqb_spec (TabNet.num_features self) (ncols features)); [congruence|].
  destruct (Nat.eqb_spec (TabNet.num_features self) 1); [congruence|].
  destruct (Nat.eqb_spec (ncols features) 1); [congruence | discriminate].
Qed.

(** X6: the aggregated mask keeps the shape [batch, num_features] and has
    no negative entry. *)
Theorem aggregated_mask_shape_nonneg self inputs training k features st :
  consistent self ->
  pass_state self inputs training k features st ->
  well_shaped (TabNet.aggregated_mask_values st) /\
  nrows (TabNet.aggregated_mask_values st) = nrows features /\
  ncols (TabNet.aggregated_mask_values st) = TabNet.num_features self /\
  entries (fun x => 0 <= x) (TabNet.aggregated_mask_values st).
Proof.
  intros C Hst.
  destruct (accumulated_pass _ _ _ _ _ _ C Hst)
    as (_ & _ & _ & _ & W & R1 & C1 & E & _).
  repeat split; assumption.
Qed.
End Further.

Section Further2.
Context {K : Keras}.

(** The masked features keep the shape of the input features when their
    width is [num_features], and are bounded by them. *)
Lemma masked_features_pass self inputs training k features st :
  consistent self ->
  ncols features = TabNet.num_features self ->
  pass_state self inputs training k features st ->
  ncols (TabNet.masked_features st) = TabNet.num_features self /\
  forall i j, (i < nrows features)%nat -> (j < TabNet.num_features self)%nat ->
    Rabs (get (TabNet.masked_features st) i j) <= Rabs (get features i j).
Proof.
  intros C Hc. revert st. induction k as [|k IH]; intros st Hst.
  - destruct (pass_state_0 _ _ _ _ _ Hst) as (s & _ & ->).
    cbn [TabNet.initial TabNet.masked_features]. split; [exact Hc|].
    intros; lra.
  - destruct (pass_state_pred _ _ _ _ _ _ Hst) as (st0 & Hst0).
    specialize (IH st0 Hst0).
    destruct (pass_step_cases _ _ _ _ _ _ _ C Hst0 Hst)
      as (Wf & _ & Sh & f4 & self1 & _ & _ & _ & _ & _ & _ & _ & Hcases).
    destruct Hcases as [[_ Hup] | [_ Hkeep]].
    + destruct Hup as (raw & coef & scaled & ent & _ & _ & Hmask & _ & _ & _
                       & Hmf & _).
      destruct Sh as (_ & _ & _ & _ & Wk & Rk & Ck & _).
      split.
      * apply broadcast_shape in Hmf. destruct Hmf as (_ & _ & Hcm).
        rewrite Ck, Hc, broadcast_dim_same in Hcm. congruence.
      * intros i j Hi Hj.
        rewrite (multiply_get _ _ _ i j Wk Wf) by (trivial; congruence).
        assert (Hm : 0 <= get (TabNet.mask_values st) i j <= 1).
        { apply (get_entries (fun m => 0 <= m <= 1)); trivial; try congruence.
          rewrite Hmask. apply sparsemax_entries. }
        rewrite Rabs_mult, (Rabs_pos_eq _ (proj1 Hm)).
        pose proof (Rabs_pos (get features i j)). nra.
    + destruct Hkeep as (_ & -> & _). exact IH.
Qed.

(** X7: masking never amplifies a feature: every entry of the features fed
    to a decision step is bounded in absolute value by the entry of the
    normalised input. *)
Theorem masked_features_bounded self inputs training k features st :
  consistent self ->
  ncols features = TabNet.num_features self ->
  pass_state self inputs training k features st ->
  forall i j, (i < nrows features)%nat -> (j < TabNet.num_features self)%nat ->
    Rabs (get (TabNet.masked_features st) i j) <= Rabs (get features i j).
Proof.
  intros C Hc Hst. apply (masked_features_pass _ _ _ _ _ _ C Hc Hst).
Qed.

(** X8: the budget after [j] updates is at least
    [(relaxation_factor - 1) ^ j]; with a relaxation factor above 1 no
    budget entry ever reaches zero. *)
Theorem budget_lower_bound self inputs training k features st :
  consistent self ->
  1 <= TabNet.relaxation_factor self ->
  pass_state self inputs training k features st ->
  entries
    (fun b => (TabNet.relaxation_factor self - 1)
                ^ Nat.min k (TabNet.num_decision_steps self - 1) <= b)
    (TabNet.complemantary_aggregated_mask_values st) /\
  (1 < TabNet.relaxation_factor self ->
   entries (fun b => 0 < b) (TabNet.complemantary_aggregated_mask_values st)).
Proof.
  intros C Hrf Hst.
  assert (H : entries
                (fun b => (TabNet.relaxation_factor self - 1)
                            ^ Nat.min k (TabNet.num_decision_steps self - 1) <= b)
                (TabNet.complemantary_aggregated_mask_values st)).
  { revert st Hst. induction k as [|k IH]; intros st Hst.
    - destruct (pass_state_0 _ _ _ _ _ Hst) as (self1 & _ & ->).
      cbn [TabNet.initial TabNet.complemantary_aggregated_mask_values Nat.min].
      apply const_entries. simpl. lra.
    - destruct (pass_state_pred _ _ _ _ _ _ Hst) as (st0 & Hst0).
      specialize (IH st0 Hst0).
      destruct (pass_step_cases _ _ _ _ _ _ _ C Hst0 Hst)
        as (_ & Sh & Sh' & f4 & self1 & SC & _ & _ & _ & _ & _ & _ & Hcases).
      destruct Hcases as [[Hlt Hup] | [-> Hkeep]].
      + destruct Hup as (raw & coef & scaled & ent & _ & _ & Hmask & Hbud & _).
        destruct Sh as (_ & _ & _ & _ & _ & _ & _ & Wb & _).
        destruct Sh' as (_ & _ & _ & _ & Wk & _).
        destruct SC as (_ & _ & _ & _ & Erf & _).
        destruct (pointwise_shape (fun m => TabNet.relaxation_factor self1 - m)
                    (TabNet.mask_values st) Wk) as (Wp & _).
        rewrite Nat.min_l in IH by lia. rewrite Nat.min_l by lia.
        eapply (broadcast_entries _
                  (fun y => TabNet.relaxation_factor self - 1 <= y));
          [exact Wb | exact Wp | exact IH | | | exact Hbud].
        * eapply pointwise_entries; [|rewrite Hmask; apply sparsemax_entries].
          simpl. intros x Hx. rewrite <- Erf. lra.
        * simpl. intros x y Hx Hy.
          assert (0 <= (TabNet.relaxation_factor self - 1) ^ k)
            by (apply pow_le; lra).
          nra.
      + destruct Hkeep as (_ & _ & _ & -> & _).
        rewrite Nat.min_r in IH by lia. rewrite Nat.min_r by lia. exact IH. }
  split; [exact H|]. intros Hgt.
  eapply entries_impl; [|exact H]. simpl. intros b Hb.
  eapply Rlt_le_trans; [|exact Hb]. apply pow_lt. lra.
Qed.

(** X9: a block whose projection has [features] units maps a batch to a
    tensor of shape [batch, features], and keeps its attributes and that
    width. *)
Theorem TransformBlock_call_keeps_width (b b' : TransformBlock.t)
    (x y : Tensor) (training : option bool) :
  block_units b = TransformBlock.features b ->
  well_shaped x ->
  TransformBlock.call b x training = Ok (y, b') ->
  well_shaped y /\ nrows y = nrows x /\ ncols y = TransformBlock.features b /\
  TransformBlock.features b' = TransformBlock.features b /\
  TransformBlock.momentum b' = TransformBlock.momentum b /\
  TransformBlock.virtual_batch_size b' = TransformBlock.virtual_batch_size b /\
  block_units b' = TransformBlock.features b'.
Proof.
  intros Hu Hx H.
  destruct (TransformBlock_call_shape _ _ _ _ _ Hx H) as (W & R1 & C1 & U).
  unfold TransformBlock.call in H.
  inv_bind H. destruct r as [v d']. inv_bind H. destruct r as [w n'].
  injection H as _ <-. cbn [TransformBlock.features TransformBlock.momentum
                             TransformBlock.virtual_batch_size] in *.
  repeat split; trivial; try congruence.
Qed.

(** X10: the classification head returns a tensor of shape
    [batch, num_classes], where [batch] is that of the stored activations,
    and keeps the widths of its layers. *)
Theorem classification_output_shape (self self' : TabNetClassification.t)
    inputs training out :
  consistent (TabNetClassification.tabnet self) ->
  units (TabNetClassification.clf self) = TabNetClassification.num_classes self ->
  TabNetClassification.call self inputs training = Ok (out, self') ->
  well_shaped out /\
  ncols out = TabNetClassification.num_classes self /\
  (exists agg, TabNetClassification.activations self' = Some agg /\
               nrows out = nrows agg) /\
  consistent (TabNetClassification.tabnet self') /\
  units (TabNetClassification.clf self')
    = TabNetClassification.num_classes self'.
Proof.
  intros C Hu H. unfold TabNetClassification.call in H.
  inv_bind H. destruct r as [[agg ent] tabnet'].
  inv_bind H. destruct r as [o clf']. injection H as <- <-.
  destruct (call_pass_state _ _ _ _ _ _ E) as (f & st & Hst & -> & _ & ->).
  destruct (accumulated_pass _ _ _ _ _ _ C Hst) as (W & _).
  destruct (Dense_shape _ _ _ _ W E0) as (Wo & Ro & Co & Uo).
  destruct (pass_state_shaped _ _ _ _ _ _ C Hst) as (_ & s1 & _ & Sh).
  destruct Sh as (_ & C' & _).
  cbn. split; [exact Wo|]. split; [congruence|].
  split; [eexists; split; [reflexivity | exact Ro]|].
  split; [exact C' | congruence].
Qed.

(** X11: the regression head returns a tensor of shape
    [batch, num_regressors], where [batch] is that of the stored
    activations, and keeps the widths of its layers. *)
Theorem regression_output_shape (self self' : TabNetRegression.t)
    inputs training out :
  consistent (TabNetRegression.tabnet self) ->
  units (TabNetRegression.regressor self) = TabNetRegression.num_regressors self ->
  TabNetRegression.call self inputs training = Ok (out, self') ->
  well_shaped out /\
  ncols out = TabNetRegression.num_regressors self /\
  (exists agg, TabNetRegression.activations self' = Some agg /\
               nrows out = nrows agg) /\
  consistent (TabNetRegression.tabnet self') /\
  units (TabNetRegression.regressor self')
    = TabNetRegression.num_regressors self'.
Proof.
  intros C Hu H. unfold TabNetRegression.call in H.
  inv_bind H. destruct r as [[agg ent] tabnet'].
  inv_bind H. destruct r as [o reg']. injection H as <- <-.
  destruct (call_pass_state _ _ _ _ _ _ E) as (f & st & Hst & -> & _ & ->).
  destruct (accumulated_pass _ _ _ _ _ _ C Hst) as (W & _).
  destruct (Dense_shape _ _ _ _ W E0) as (Wo & Ro & Co & Uo).
  destruct (pass_state_shaped _ _ _ _ _ _ C Hst) as (_ & s1 & _ & Sh).
  destruct Sh as (_ & C' & _).
  cbn. split; [exact Wo|]. split; [congruence|].
  split; [eexists; split; [reflexivity | exact Ro]|].
  split; [exact C' | congruence].
Qed.

(** X12: at every decision step the mask and the budget have the shape
    [batch, num_features], and the features fed to the next step have the
    batch size of the input. *)
Theorem loop_variables_shapes self inputs training k features st :
  consistent self ->
  pass_state self inputs training k features st ->
  (well_shaped (TabNet.mask_values st) /\
   nrows (TabNet.mask_values st) = nrows features /\
   ncols (TabNet.mask_values st) = TabNet.num_features self) /\
  (well_shaped (TabNet.complemantary_aggregated_mask_values st) /\
   nrows (TabNet.complemantary_aggregated_mask_values st) = nrows features /\
   ncols (TabNet.complemantary_aggregated_mask_values st)
     = TabNet.num_features self) /\
  (well_shaped (TabNet.masked_features st) /\
   nrows (TabNet.masked_features st) = nrows features).
Proof.
  intros C Hst.
  destruct (pass_state_shaped _ _ _ _ _ _ C Hst) as (_ & s1 & SC & Sh).
  destruct SC as (-> & _).
  destruct Sh as (_ & _ & ? & ? & ? & ? & ? & ? & ? & ?).
  repeat split; assumption.
Qed.
End Further2.

Lemma ln_le_minus_one (x : R) : 0 < x -> ln x <= x - 1.
Proof.
  intros Hx. pose proof (exp_ineq1_le (ln x)) as H.
  rewrite exp_ln in H by exact Hx. lra.
Qed.

Lemma entry_entropy_upper (N m epsilon : R) :
  0 < N -> 0 <= m -> 0 < epsilon ->
  - m * ln (m + epsilon) <= m * ln N + / N - m.
Proof.
  intros HN Hm He.
  assert (Hme : 0 < m + epsilon) by lra.
  assert (Hx : 0 < / (N * (m + epsilon)))
    by (apply Rinv_0_lt_compat; now apply Rmult_lt_0_compat).
  pose proof (ln_le_minus_one _ Hx) as H.
  rewrite ln_Rinv, ln_mult in H by (trivial; now apply Rmult_lt_0_compat).
  assert (Hfrac : m * / (N * (m + epsilon)) <= / N).
  { rewrite Rinv_mult.
    assert (0 < / N) by now apply Rinv_0_lt_compat.
    assert (m * / (m + epsilon) <= 1).
    { apply (Rmult_le_reg_r (m + epsilon)); [exact Hme|].
      rewrite Rmult_assoc, Rinv_l by lra. lra. }
    replace (m * (/ N * / (m + epsilon))) with (/ N * (m * / (m + epsilon)))
      by ring.
    nra. }
  nra.
Qed.

Lemma row_entropy_upper (N epsilon : R) (row : list R) :
  0 < N -> 0 < epsilon -> Forall (fun m => 0 <= m) row ->
  rsum (map (fun m => - m * ln (m + epsilon)) row)
  <= ln N * rsum row + INR (length row) * / N - rsum row.
Proof.
  intros HN He. induction 1 as [|m row Hm _ IH].
  - simpl. change (INR 0) with 0. lra.
  - cbn [map rsum fold_right length]. rewrite S_INR.
    pose proof (entry_entropy_upper N m epsilon HN Hm He).
    unfold rsum in *. lra.
Qed.

Lemma entropy_term_upper (epsilon : R) (mask : Tensor) :
  0 < epsilon -> (0 < ncols mask)%nat -> well_shaped mask ->
  Forall simplex (rows mask) ->
  spec_entropy_term epsilon mask <= ln (INR (ncols mask)).
Proof.
  intros He Hn Hw Hs. unfold spec_entropy_term.
  assert (HN : 0 < INR (ncols mask)) by now apply lt_0_INR.
  assert (HL : 0 <= ln (INR (ncols mask))).
  { rewrite <- ln_1. destruct (Req_dec 1 (INR (ncols mask))) as [<-|Hne]; [lra|].
    left. apply ln_increasing; [lra|].
    assert (1 <= INR (ncols mask)) by (change 1 with (INR 1); apply le_INR; lia).
    lra. }
  assert (Hsum : rsum (map (fun row => rsum (map (fun m => - m * ln (m + epsilon)) row))
                         (rows mask))
                 <= INR (nrows mask) * ln (INR (ncols mask))).
  { unfold nrows. unfold well_shaped in Hw.
    induction (rows mask) as [|row l IH].
    - simpl. change (INR 0) with 0. lra.
    - apply Forall_cons_iff in Hw, Hs. destruct Hw as [Hr Hw]. destruct Hs as [[Hp H1] Hs].
      specialize (IH Hw Hs).
      cbn [map rsum fold_right length]. rewrite S_INR.
      pose proof (row_entropy_upper (INR (ncols mask)) epsilon row HN He Hp) as Hrow.
      rewrite H1, Hr, Rinv_r in Hrow by lra.
      unfold rsum in *. lra. }
  destruct (Nat.eq_dec (nrows mask) 0) as [E0|Hne].
  - rewrite E0. change (INR 0) with 0. unfold Rdiv. rewrite Rinv_0. lra.
  - assert (HB : 0 < INR (nrows mask)) by (apply lt_0_INR; lia).
    apply (Rmult_le_reg_r (INR (nrows mask))); [exact HB|].
    unfold Rdiv. rewrite Rmult_assoc, Rinv_l by lra. lra.
Qed.

Section Further3.
Context {K : Keras}.

Lemma entropy_upper_invariant self inputs training k features st :
  consistent self ->
  0 < TabNet.epsilon self ->
  (0 < TabNet.num_features self)%nat ->
  pass_state self inputs training k features st ->
  TabNet.total_entropy st
  <= INR (Nat.min k (TabNet.num_decision_steps self - 1))
     * (ln (INR (TabNet.num_features self))
        / INR (TabNet.num_decision_steps self - 1)).
Proof.
  intros C He Hnf. revert st. induction k as [|k IH]; intros st Hst.
  - destruct (pass_state_0 _ _ _ _ _ Hst) as (self1 & _ & ->).
    cbn [TabNet.initial TabNet.total_entropy Nat.min].
    change (INR 0) with 0. lra.
  - destruct (pass_state_pred _ _ _ _ _ _ Hst) as (st0 & Hst0).
    specialize (IH st0 Hst0).
    destruct (pass_step_cases _ _ _ _ _ _ _ C Hst0 Hst)
      as (_ & Sh & Sh' & f4 & self1 & SC & _ & _ & _ & _ & _ & _ & Hcases).
    destruct Hcases as [[Hlt Hup] | [-> Hkeep]].
    + destruct Hup as (raw & coef & scaled & ent & _ & Hscaled & Hmask & _ & Hent
                       & Hte & _).
      destruct Sh' as (_ & _ & _ & _ & Wk & Rk & Ck & _).
      destruct SC as (_ & _ & _ & EN & _ & Eeps).
      rewrite mask_entropy_term in Hent by exact Wk. injection Hent as <-.
      rewrite Hte, <- EN, <- Eeps.
      rewrite Nat.min_l in IH by lia. rewrite Nat.min_l by lia.
      assert (Hb : spec_entropy_term (TabNet.epsilon self) (TabNet.mask_values st)
                   <= ln (INR (TabNet.num_features self))).
      { rewrite <- Ck. apply entropy_term_upper; trivial; [lia|].
        apply broadcast_shape in Hscaled. destruct Hscaled as (Wsc & _).
        rewrite Hmask in Ck |- *. apply sparsemax_rows_simplex; [exact Wsc|].
        cbn [custom_objects.sparsemax ncols] in Ck. lia. }
      assert (HN : 0 < INR (TabNet.num_decision_steps self - 1))
        by (apply lt_0_INR; lia).
      rewrite S_INR. unfold Rdiv in *.
      assert (Hinv : 0 < / INR (TabNet.num_decision_steps self - 1))
        by now apply Rinv_0_lt_compat.
      nra.
    + destruct Hkeep as (_ & _ & _ & _ & ->).
      rewrite Nat.min_r in IH by lia. rewrite Nat.min_r by lia. exact IH.
Qed.

(** X13: the entropy returned by the forward pass is at most the logarithm
    of the number of features, the entropy of the uniform mask. *)
Theorem total_entropy_upper_bound self inputs training features self1
    out ent self' :
  consistent self ->
  0 < TabNet.epsilon self ->
  (0 < TabNet.num_features self)%nat ->
  TabNet.normalized_features self inputs training = Ok (features, self1) ->
  (0 < nrows features)%nat ->
  TabNet.call self inputs training = Ok ((out, ent), self') ->
  ent <= ln (INR (TabNet.num_features self)).
Proof.
  intros C He Hnf Hn HB Hcall.
  destruct (call_features _ _ _ _ _ _ _ _ Hn Hcall) as (st & Hst & _ & -> & _).
  pose proof (entropy_upper_invariant _ _ _ _ _ _ C He Hnf Hst) as Hinv.
  assert (HL : 0 <= ln (INR (TabNet.num_features self))).
  { rewrite <- ln_1.
    destruct (Req_dec 1 (INR (TabNet.num_features self))) as [<-|Hne]; [lra|].
    left. apply ln_increasing; [lra|].
    assert (1 <= INR (TabNet.num_features self))
      by (change 1 with (INR 1); apply le_INR; lia).
    lra. }
  rewrite Nat.min_r in Hinv by lia.
  destruct (TabNet.num_decision_steps self - 1)%nat as [|m] eqn:Em.
  - change (INR 0) with 0 in Hinv. lra.
  - assert (0 < INR (S m)) by (apply lt_0_INR; lia).
    replace (INR (S m) * (ln (INR (TabNet.num_features self)) / INR (S m)))
      with (ln (INR (TabNet.num_features self))) in Hinv by (field; lra).
    exact Hinv.
Qed.
End Further3.

Lemma broadcast_ok (f : R -> R -> R) (a b : Tensor) (r c : nat) :
  tf.broadcast_dim (nrows a) (nrows b) = Some r ->
  tf.broadcast_dim (ncols a) (ncols b) = Some c ->
  exists t, tf.broadcast f a b = Ok t.
Proof.
  intros Hr Hc. unfold tf.broadcast. rewrite Hr, Hc. eauto.
Qed.

Lemma broadcast_ok_same (f : R -> R -> R) (a b : Tensor) :
  nrows a = nrows b -> ncols a = ncols b ->
  exists t, tf.broadcast f a b = Ok t.
Proof.
  intros Hr Hc. apply (broadcast_ok f a b (nrows a) (ncols a)).
  - rewrite Hr. apply broadcast_dim_same.
  - rewrite Hc. apply broadcast_dim_same.
Qed.

Section Progress.
Context {K : Keras}.

(** The decision aggregation returns when the shapes agree. *)
Lemma aggregate_ok (self1 : TabNet.t) (st : TabNet.locals) (f4 : Tensor)
    (ni : nat) :
  well_shaped f4 ->
  nrows (TabNet.output_aggregated st) = nrows f4 ->
  ncols (TabNet.output_aggregated st) = Nat.min (TabNet.output_dim self1) (ncols f4) ->
  nrows (TabNet.mask_values st) = nrows f4 ->
  nrows (TabNet.aggregated_mask_values st) = nrows f4 ->
  ncols (TabNet.aggregated_mask_values st) = ncols (TabNet.mask_values st) ->
  exists oa am, TabNet.aggregate self1 st f4 ni = Ok (oa, am).
Proof.
  intros W4 Roa Coa Rk Ram Cam. unfold TabNet.aggregate.
  destruct (0 <? ni)%nat; [|eauto].
  destruct (slice_to_shape (TabNet.output_dim self1) f4 W4) as (Ws & Rs & Cs).
  destruct (pointwise_shape Rrelu _ Ws) as (Wd & Rd & Cd).
  fold (tf.nn.relu (tf.slice_to (TabNet.output_dim self1) f4)) in Wd, Rd, Cd.
  set (dec := tf.nn.relu (tf.slice_to (TabNet.output_dim self1) f4)) in *.
  destruct (broadcast_ok_same Rplus (TabNet.output_aggregated st) dec)
    as (oa & Hoa); [congruence | congruence |].
  unfold tf.add at 1. rewrite Hoa. cbn [bind].
  destruct (reduce_sum_keepdims_shape dec) as (Wr & Rr & Cr).
  set (scale := tf.pointwise
                  (fun x => x / INR (TabNet.num_decision_steps self1 - 1))
                  (tf.reduce_sum_keepdims dec)) in *.
  destruct (pointwise_shape
              (fun x => x / INR (TabNet.num_decision_steps self1 - 1)) _ Wr)
    as (Wsc & Rsc & Csc).
  fold scale in Wsc, Rsc, Csc.
  destruct (broadcast_ok Rmult (TabNet.mask_values st) scale
              (nrows f4) (ncols (TabNet.mask_values st))) as (w & Hw).
  { rewrite Rk, Rsc, Rr, Rd, Rs. apply broadcast_dim_same. }
  { rewrite Csc, Cr. apply broadcast_dim_one_r. }
  unfold tf.multiply. rewrite Hw. cbn [bind].
  pose proof (broadcast_shape _ _ _ _ Hw) as (_ & Rw & Cw).
  rewrite Rk, Rsc, Rr, Rd, Rs, broadcast_dim_same in Rw.
  rewrite Csc, Cr, broadcast_dim_one_r in Cw.
  injection Rw as Rw. injection Cw as Cw.
  destruct (broadcast_ok_same Rplus (TabNet.aggregated_mask_values st) w)
    as (am & Ham); [congruence | congruence |].
  unfold tf.add. rewrite Ham. cbn [bind]. eauto.
Qed.

(** X14: within a decision step no tensor operation meets incompatible
    shapes: when the encoded features have width [num_features] and the
    output dimension does not exceed the feature dimension, the step
    returns as soon as the four block calls of its feature transformer
    return and, at a step that is not the last, the call of the mask block
    returns. *)
Theorem decision_step_returns self inputs training k features st
    y1 y2 y3 y4 b1 b2 b3 b4 :
  consistent self ->
  (TabNet.output_dim self <= TabNet.feature_dim self)%nat ->
  ncols features = TabNet.num_features self ->
  pass_state self inputs training k features st ->
  TransformBlock.call (TabNet.transform_f1 (TabNet.model st))
    (TabNet.masked_features st) training = Ok (y1, b1) ->
  TransformBlock.call (TabNet.transform_f2 (TabNet.model st))
    (spec_GLU (TabNet.feature_dim self) y1) training = Ok (y2, b2) ->
  TransformBlock.call (TabNet.transform_f3 (TabNet.model st))
    (spec_residual (spec_GLU (TabNet.feature_dim self) y2)
       (spec_GLU (TabNet.feature_dim self) y1)) training = Ok (y3, b3) ->
  TransformBlock.call (TabNet.transform_f4 (TabNet.model st))
    (spec_residual (spec_GLU (TabNet.feature_dim self) y3)
       (spec_residual (spec_GLU (TabNet.feature_dim self) y2)
          (spec_GLU (TabNet.feature_dim self) y1))) training = Ok (y4, b4) ->
  ((k < TabNet.num_decision_steps self - 1)%nat ->
   exists raw coef,
     TransformBlock.call (TabNet.transform_coef (TabNet.model st))
       (tf.slice_from (TabNet.output_dim self)
          (spec_residual (spec_GLU (TabNet.feature_dim self) y4)
             (spec_residual (spec_GLU (TabNet.feature_dim self) y3)
                (spec_residual (spec_GLU (TabNet.feature_dim self) y2)
                   (spec_GLU (TabNet.feature_dim self) y1))))) training
     = Ok (raw, coef)) ->
  exists st', TabNet.decision_step features training st k = Ok st'.
Proof.
  intros C Hod Hcf Hst H1 H2 H3 H4 Hmaskcall.
  destruct (pass_state_shaped _ _ _ _ _ _ C Hst) as (Wf & s0 & SC0 & Sh).
  apply (shaped_config _ _ _ _ SC0) in Sh.
  destruct (accumulated_pass _ _ _ _ _ _ C Hst)
    as (Woa & Roa & _ & Coa & Wam & Ram & Cam & _ & _).
  destruct Sh as (SCm & Cm & Wm & Rm & Wk & Rk & Ck & Wb & Rb & Cb).
  set (n := TabNet.feature_dim self) in *.
  set (f4 := spec_residual (spec_GLU n y4)
               (spec_residual (spec_GLU n y3)
                  (spec_residual (spec_GLU n y2) (spec_GLU n y1)))) in *.
  set (self1 := TabNet.set_transform_f (TabNet.model st) b1 b2 b3 b4).
  assert (Hch : spec_transform_chain (TabNet.model st)
                  (TabNet.masked_features st) training = Ok (f4, self1)).
  { unfold spec_transform_chain.
    replace (TabNet.feature_dim (TabNet.model st)) with n
      by (destruct SCm as (_ & E & _); exact E).
    cbv zeta. rewrite H1. cbn [bind]. rewrite H2. cbn [bind].
    rewrite H3. cbn [bind]. rewrite H4. reflexivity. }
  clearbody f4 self1. subst n.
  unfold TabNet.decision_step.
  rewrite feature_transformer_chain by assumption.
  rewrite Hch. cbn [bind].
  destruct (transform_chain_shape _ _ _ _ _ Cm Wm Hch)
    as (W4 & R4 & C4 & SC1 & C1 & Hcoef).
  pose proof (same_config_trans _ _ _ SCm SC1) as SC.
  destruct SC as (Enf & Efd & Eod & EN & Erf & Eeps).
  destruct SCm as (_ & Efd' & _).
  destruct (aggregate_ok self1 st f4 k) as (oa & am & Hagg); trivial;
    try congruence.
  { rewrite (Coa Hod), C4, <- Eod, <- Efd', Nat.min_l by exact Hod. reflexivity. }
  rewrite Hagg. cbn [bind].
  destruct (Nat.ltb_spec k (TabNet.num_decision_steps self1 - 1)) as [Hlt|Hge];
    [|eauto].
  destruct (slice_from_shape (TabNet.output_dim self1) f4 W4) as (Ws & Rs & _).
  destruct Hmaskcall as (raw & coef & Hraw); [rewrite EN; exact Hlt|].
  rewrite <- Hcoef, Eod in Hraw.
  rewrite Hraw. cbn [bind].
  destruct (TransformBlock_call_shape _ _ _ _ _ Ws Hraw) as (Wr & Rr & Cr & _).
  destruct C1 as (_ & _ & _ & _ & D5). rewrite D5, <- Enf in Cr.
  destruct (broadcast_ok_same Rmult raw
              (TabNet.complemantary_aggregated_mask_values st))
    as (scaled & Hsc); [congruence | congruence |].
  unfold tf.multiply at 1. rewrite Hsc. cbn [bind].
  pose proof (broadcast_shape _ _ _ _ Hsc) as (Wsc & Rsc & Csc).
  rewrite Rr, Rs, R4, Rm, Rb, broadcast_dim_same in Rsc.
  rewrite Cr, Cb, broadcast_dim_same in Csc.
  injection Rsc as Rsc. injection Csc as Csc.
  destruct (sparsemax_shape scaled Wsc) as (Wmk & Rmk & Cmk).
  set (mask := custom_objects.sparsemax scaled) in *.
  destruct (pointwise_shape (fun m => TabNet.relaxation_factor self1 - m)
              mask Wmk) as (Wp & Rp & Cp).
  destruct (broadcast_ok_same Rmult
              (TabNet.complemantary_aggregated_mask_values st)
              (tf.pointwise (fun m => TabNet.relaxation_factor self1 - m) mask))
    as (budget & Hbud); [congruence | congruence |].
  unfold tf.multiply at 1. rewrite Hbud. cbn [bind].
  rewrite mask_entropy_term by exact Wmk. cbn [bind].
  destruct (broadcast_ok_same Rmult mask features)
    as (mf & Hmf); [congruence | congruence |].
  unfold tf.multiply. rewrite Hmf. cbn [bind]. eauto.
Qed.
End Progress.

(** The sum of row [i] of a tensor. *)
Definition row_sum (t : Tensor) (i : nat) : R := rsum (nth i (rows t) []).

Lemma bidx_id (dim i : nat) : (i < dim)%nat -> tf.bidx dim i = i.
Proof.
  unfold tf.bidx. intros Hi. destruct (Nat.eqb_spec dim 1); [lia | reflexivity].
Qed.

Lemma nth_repeat_in {A : Type} (x d : A) (n i : nat) :
  (i < n)%nat -> nth i (repeat x n) d = x.
Proof.
  intros Hi. rewrite (nth_indep _ d x) by now rewrite repeat_length.
  apply nth_repeat.
Qed.

Lemma rsum_zip_plus (r1 r2 : list R) :
  length r1 = length r2 -> rsum (zip_with Rplus r1 r2) = rsum r1 + rsum r2.
Proof.
  unfold zip_with. revert r2.
  induction r1 as [|x r1 IH]; intros [|y r2]; simpl; intros H; try discriminate.
  - lra.
  - injection H as H. specialize (IH r2 H). unfold rsum in *. lra.
Qed.

Lemma rsum_map_scale (s : R) (r : list R) :
  rsum (map (fun m => m * s) r) = s * rsum r.
Proof.
  induction r as [|x r IH]; simpl; [lra|]. unfold rsum in *. lra.
Qed.

Lemma row_sum_add (a b c : Tensor) (i : nat) :
  well_shaped a -> well_shaped b -> nrows a = nrows b -> ncols a = ncols b ->
  tf.add a b = Ok c -> (i < nrows a)%nat ->
  row_sum c i = row_sum a i + row_sum b i.
Proof.
  intros Wa Wb Hr Hc H Hi. unfold tf.add in H.
  rewrite broadcast_same_shape in H by assumption. injection H as <-.
  unfold row_sum; simpl.
  rewrite (nth_zip_with (zip_with Rplus) (rows a) (rows b) i [] [] [])
    by (fold (nrows a) (nrows b); lia).
  apply rsum_zip_plus. rewrite !well_shaped_nth; trivial; lia.
Qed.

(** A [batch, n] tensor times a [batch, 1] tensor scales every row. *)
Lemma row_sum_scaled (a s c : Tensor) (i : nat) :
  well_shaped a -> nrows s = nrows a -> ncols s = 1%nat ->
  tf.multiply a s = Ok c -> (i < nrows a)%nat ->
  row_sum c i = get s i 0 * row_sum a i.
Proof.
  intros Wa Hr Hc H Hi. unfold tf.multiply, tf.broadcast in H.
  rewrite <- Hr, broadcast_dim_same, Hc, broadcast_dim_one_r in H.
  injection H as <-. unfold row_sum; simpl.
  rewrite (nth_indep _ [] (map (fun j => tf.bget a 0 j * tf.bget s 0 j)
                               (seq 0 (ncols a))))
    by (rewrite length_map, length_seq; lia).
  rewrite (map_nth (fun i => map (fun j => tf.bget a i j * tf.bget s i j)
                              (seq 0 (ncols a))) (seq 0 (nrows s)) 0%nat i).
  rewrite seq_nth by lia. simpl.
  rewrite <- rsum_map_scale.
  assert (Hrow : length (nth i (rows a) []) = ncols a)
    by (apply well_shaped_nth; trivial).
  f_equal. apply (nth_ext _ _ 0 0).
  - now rewrite !length_map, length_seq.
  - intros j Hj. rewrite length_map, length_seq in Hj.
    rewrite (nth_indep _ 0 (tf.bget a i 0 * tf.bget s i 0))
      by now rewrite length_map, length_seq.
    rewrite (map_nth (fun j => tf.bget a i j * tf.bget s i j)
               (seq 0 (ncols a)) 0%nat j).
    rewrite seq_nth by exact Hj. simpl.
    rewrite (nth_indep _ 0 (0 * get s i 0)) by (rewrite length_map; lia).
    rewrite (map_nth (fun m => m * get s i 0)).
    unfold tf.bget. rewrite Hr, Hc.
    rewrite (bidx_id (nrows a) i) by exact Hi.
    replace (tf.bidx 1 j) with 0%nat by reflexivity.
    f_equal. unfold get, tf.bidx.
    destruct (Nat.eqb_spec (ncols a) 1) as [E|E]; [|reflexivity].
    replace j with 0%nat by lia. reflexivity.
Qed.

Lemma get_scale_agg (dec : Tensor) (d : R) (i : nat) :
  (i < nrows dec)%nat ->
  get (tf.pointwise (fun x => x / d) (tf.reduce_sum_keepdims dec)) i 0
  = row_sum dec i / d.
Proof.
  intros Hi. unfold get, tf.pointwise, tf.reduce_sum_keepdims, row_sum; simpl.
  rewrite map_map.
  rewrite (nth_indep _ [] ((fun r => map (fun x => x / d) [rsum r]) []))
    by (rewrite length_map; exact Hi).
  rewrite (map_nth (fun r => map (fun x => x / d) [rsum r])). reflexivity.
Qed.

Section Importance.
Context {K : Keras}.

(** After the first step the mask held by the loop is a sparsemax output. *)
Lemma mask_simplex_pass self inputs training k features st :
  consistent self ->
  (0 < TabNet.num_features self)%nat ->
  (2 <= TabNet.num_decision_steps self)%nat ->
  pass_state self inputs training (S k) features st ->
  Forall simplex (rows (TabNet.mask_values st)).
Proof.
  intros C Hnf HN. revert st. induction k as [|k IH]; intros st Hst;
    destruct (pass_state_pred _ _ _ _ _ _ Hst) as (st0 & Hst0);
    destruct (pass_step_cases _ _ _ _ _ _ _ C Hst0 Hst)
      as (_ & _ & Sh & f4 & self1 & _ & _ & _ & _ & _ & _ & _ & Hcases);
    (destruct Hcases as [[_ Hup] | [Hge Hkeep]];
     [ destruct Hup as (raw & coef & scaled & ent & _ & Hscaled & Hmask & _);
       destruct Sh as (_ & _ & _ & _ & _ & _ & Ck & _);
       rewrite Hmask in Ck |- *; apply sparsemax_rows_simplex;
       [ now apply broadcast_shape in Hscaled
       | cbn [custom_objects.sparsemax ncols] in Ck; lia ]
     | ]).
  - lia.
  - destruct Hkeep as (_ & _ & -> & _). apply IH. exact Hst0.
Qed.

Lemma importance_invariant self inputs training k features st :
  consistent self ->
  (0 < TabNet.num_features self)%nat ->
  (TabNet.output_dim self <= TabNet.feature_dim self)%nat ->
  pass_state self inputs training k features st ->
  forall i, (i < nrows features)%nat ->
    row_sum (TabNet.aggregated_mask_values st) i
    = row_sum (TabNet.output_aggregated st) i
      / INR (TabNet.num_decision_steps self - 1).
Proof.
  intros C Hnf Hod. revert st. induction k as [|k IH]; intros st Hst i Hi.
  - destruct (pass_state_0 _ _ _ _ _ Hst) as (s & _ & ->).
    cbn [TabNet.initial TabNet.aggregated_mask_values TabNet.output_aggregated].
    unfold row_sum, tf.zeros; simpl.
    rewrite !nth_repeat_in by exact Hi.
    rewrite !rsum_repeat. lra.
  - destruct (pass_state_pred _ _ _ _ _ _ Hst) as (st0 & Hst0).
    specialize (IH st0 Hst0 i Hi).
    assert (Hle : (S k <= TabNet.num_decision_steps self)%nat)
      by (destruct Hst as (_ & _ & Hle & _); exact Hle).
    destruct (accumulated_pass _ _ _ _ _ _ C Hst0)
      as (Woa & Roa & _ & Coa & Wam & Ram & Cam & _ & _).
    destruct (pass_step_cases _ _ _ _ _ _ _ C Hst0 Hst)
      as (Wf & Sh0 & _ & f4 & self1 & SC & _ & _ & W4 & R4 & C4 & Hagg & _).
    apply aggregate_inv in Hagg.
    destruct Hagg as [(_ & -> & ->) | (Hni & Hagg)]; [exact IH|].
    cbv zeta in Hagg. destruct Hagg as (Hoa & weighted & Hw & Ham).
    destruct SC as (_ & _ & Eod & EN & _). rewrite <- Eod, <- EN in *.
    set (dec := tf.nn.relu (tf.slice_to (TabNet.output_dim self) f4)) in *.
    destruct (slice_to_shape (TabNet.output_dim self) f4 W4) as (Ws & Rs & Cs).
    destruct (pointwise_shape Rrelu _ Ws) as (Wd & Rd & Cd).
    fold (tf.nn.relu (tf.slice_to (TabNet.output_dim self) f4)) in Wd, Rd, Cd.
    fold dec in Wd, Rd, Cd.
    destruct (reduce_sum_keepdims_shape dec) as (Wr & Rr & Cr).
    set (scale := tf.pointwise
                    (fun x => x / INR (TabNet.num_decision_steps self - 1))
                    (tf.reduce_sum_keepdims dec)) in *.
    destruct (pointwise_shape
                (fun x => x / INR (TabNet.num_decision_steps self - 1))
                _ Wr) as (Wsc & Rsc & Csc).
    fold scale in Wsc, Rsc, Csc.
    destruct Sh0 as (_ & _ & _ & _ & Wk & Rk & Ck & _).
    assert (Hsimplex : Forall simplex (rows (TabNet.mask_values st0))).
    { destruct k as [|k]; [lia|].
      apply (mask_simplex_pass self inputs training k features st0); trivial. lia. }
    assert (Hmask1 : row_sum (TabNet.mask_values st0) i = 1).
    { unfold row_sum. rewrite Forall_forall in Hsimplex.
      apply Hsimplex, nth_In. fold (nrows (TabNet.mask_values st0)). lia. }
    assert (Hdec : ncols dec = TabNet.output_dim self)
      by (rewrite Cd, Cs, C4; apply Nat.min_l; exact Hod).
    assert (Hr1 : nrows (TabNet.output_aggregated st0) = nrows dec) by congruence.
    assert (Hc1 : ncols (TabNet.output_aggregated st0) = ncols dec)
      by (rewrite (Coa Hod); congruence).
    rewrite (row_sum_add _ _ _ i Woa Wd Hr1 Hc1 Hoa) by lia.
    pose proof (broadcast_shape _ _ _ _ Hw) as (Ww & Rw & Cw).
    rewrite Rk, Rsc, Rr, Rd, Rs, R4, broadcast_dim_same in Rw.
    rewrite Ck, Csc, Cr, broadcast_dim_one_r in Cw.
    injection Rw as Rw. injection Cw as Cw.
    assert (Hr2 : nrows (TabNet.aggregated_mask_values st0) = nrows weighted)
      by congruence.
    assert (Hc2 : ncols (TabNet.aggregated_mask_values st0) = ncols weighted)
      by congruence.
    rewrite (row_sum_add _ _ _ i Wam Ww Hr2 Hc2 Ham) by lia.
    assert (Hr3 : nrows scale = nrows (TabNet.mask_values st0)) by congruence.
    rewrite (row_sum_scaled _ _ _ i Wk Hr3 Csc Hw) by lia.
    unfold scale. rewrite get_scale_agg by lia.
    rewrite IH, Hmask1. lra.
Qed.

(** X15: for every sample the aggregated mask sums to the sum of the
    aggregated output divided by [num_decision_steps - 1]: the feature
    importances share out the total decision output. *)
Theorem aggregated_mask_row_sum self inputs training k features st :
  consistent self ->
  (0 < TabNet.num_features self)%nat ->
  (2 <= TabNet.num_decision_steps self)%nat ->
  (TabNet.output_dim self <= TabNet.feature_dim self)%nat ->
  pass_state self inputs training k features st ->
  forall i, (i < nrows features)%nat ->
    rsum (nth i (rows (TabNet.aggregated_mask_values st)) [])
    = rsum (nth i (rows (TabNet.output_aggregated st)) [])
      / INR (TabNet.num_decision_steps self - 1).
Proof.
  intros C Hnf _ Hod Hst i Hi.
  apply (importance_invariant _ _ _ _ _ _ C Hnf Hod Hst i Hi).
Qed.
End Importance.

(** * Further concrete models *)

Module MoreExamples.
Import Example.

(** Three configured features for four encoded columns, two decision
    steps. *)
Definition net5 : TabNet.t :=
  TabNet.init [0; 1; 2; 3]%nat 2 (Some 3%nat) 1 2 1.5 0.98 None 1e-5.

Lemma normalized5 :
  TabNet.normalized_features net5 inputs None = Ok (features, net5).
Proof. reflexivity. Qed.

Definition block : TransformBlock.t := TransformBlock.init 4 0.98 None.

(** A classification head with three classes and a regression head with
    two regressors, over a model with two decision steps. *)
Definition classifier : TabNetClassification.t :=
  TabNetClassification.init [0; 1; 2; 3]%nat 3 None 2 1 2 1.5 0.98 None 1e-5.

Definition regression : TabNetRegression.t :=
  TabNetRegression.init [0; 1; 2; 3]%nat 2 None 2 1 2 1.5 0.98 None 1e-5.

Definition classified : Tensor * TabNetClassification.t :=
  match TabNetClassification.call classifier inputs None with
  | Ok r => r
  | Raise _ => (features, classifier)
  end.

Definition regressed : Tensor * TabNetRegression.t :=
  match TabNetRegression.call regression inputs None with
  | Ok r => r
  | Raise _ => (features, regression)
  end.

Lemma call_classifier :
  TabNetClassification.call classifier inputs None
  = Ok (fst classified, snd classified).
Proof. reflexivity. Qed.

Lemma call_regression :
  TabNetRegression.call regression inputs None
  = Ok (fst regressed, snd regressed).
Proof. reflexivity. Qed.


End MoreExamples.

Import MoreExamples.

Lemma output_aggregated_nonneg_witness :
  entries (fun x => 0 <= x) (TabNet.output_aggregated (state 3)).
Proof.
  exact (output_aggregated_nonneg net inputs None _ _ _ net_consistent call_net).
Defined.

Lemma first_step_aggregates_nothing_witness :
  TabNet.output_aggregated (state 1) = tf.zeros 1 1 /\
  TabNet.aggregated_mask_values (state 1) = tf.zeros 1 4.
Proof.
  exact (first_step_aggregates_nothing net inputs None features (state 1)
           net_consistent pass_1).
Defined.

Lemma output_aggregated_shape_witness :
  well_shaped (TabNet.output_aggregated (state 3)) /\
  nrows (TabNet.output_aggregated (state 3)) = 1%nat /\
  ncols (TabNet.output_aggregated (state 3)) = 1%nat.
Proof.
  apply (output_aggregated_shape net inputs None features net
           (TabNet.output_aggregated (state 3)) (TabNet.total_entropy (state 3))
           (TabNet.model (state 3))).
  - exact net_consistent.
  - cbv; lia.
  - exact normalized.
  - exact call_net.
Defined.

Lemma constructed_model_keeps_configuration_witness :
  consistent (TabNet.model (state 3)) /\
  TabNet.num_features (TabNet.model (state 3)) = 4%nat /\
  TabNet.feature_dim (TabNet.model (state 3)) = 2%nat /\
  TabNet.output_dim (TabNet.model (state 3)) = 1%nat /\
  TabNet.num_decision_steps (TabNet.model (state 3)) = 3%nat /\
  TabNet.relaxation_factor (TabNet.model (state 3)) = 1.5 /\
  TabNet.epsilon (TabNet.model (state 3)) = 1e-5.
Proof.
  exact (constructed_model_keeps_configuration [0; 1; 2; 3]%nat 2 None 1 3 1.5
           0.98 None 1e-5 inputs None _ _ call_net).
Defined.

Lemma feature_count_mismatch_raises_witness :
  exists e, TabNet.call net5 inputs None = Raise e.
Proof.
  apply (feature_count_mismatch_raises net5 inputs None features net5).
  - apply init_consistent.
  - cbv; lia.
  - exact normalized5.
  - cbv; lia.
  - cbv; lia.
  - cbv; lia.
Defined.

Lemma aggregated_mask_shape_nonneg_witness :
  well_shaped (TabNet.aggregated_mask_values (state 2)) /\
  nrows (TabNet.aggregated_mask_values (state 2)) = 1%nat /\
  ncols (TabNet.aggregated_mask_values (state 2)) = 4%nat /\
  entries (fun x => 0 <= x) (TabNet.aggregated_mask_values (state 2)).
Proof.
  exact (aggregated_mask_shape_nonneg net inputs None 2 features (state 2)
           net_consistent pass_2).
Defined.

Lemma masked_features_bounded_witness :
  Rabs (get (TabNet.masked_features (state 2)) 0 0) <= Rabs (get features 0 0).
Proof.
  apply (masked_features_bounded net inputs None 2 features (state 2)
           net_consistent eq_refl pass_2); cbv; lia.
Defined.

Lemma budget_lower_bound_witness :
  entries (fun b => (1.5 - 1) ^ 2 <= b)
    (TabNet.complemantary_aggregated_mask_values (state 2)) /\
  entries (fun b => 0 < b) (TabNet.complemantary_aggregated_mask_values (state 2)).
Proof.
  assert (H1 : 1 <= TabNet.relaxation_factor net)
    by (cbv [net TabNet.init TabNet.relaxation_factor]; lra).
  assert (H2 : 1 < TabNet.relaxation_factor net)
    by (cbv [net TabNet.init TabNet.relaxation_factor]; lra).
  destruct (budget_lower_bound net inputs None 2 features (state 2)
              net_consistent H1 pass_2) as [Hlow Hpos].
  split; [exact Hlow | exact (Hpos H2)].
Defined.

Lemma TransformBlock_call_keeps_width_witness :
  well_shaped (tf.zeros 1 4) /\ nrows (tf.zeros 1 4) = nrows features /\
  ncols (tf.zeros 1 4) = 4%nat.
Proof.
  destruct (TransformBlock_call_keeps_width block block features (tf.zeros 1 4)
              None eq_refl (rows_length_check 4 inputs eq_refl) eq_refl)
    as (H1 & H2 & H3 & _).
  repeat split; assumption.
Defined.

Lemma classification_output_shape_witness :
  well_shaped (fst classified) /\ ncols (fst classified) = 3%nat.
Proof.
  destruct (classification_output_shape classifier (snd classified) inputs None
              (fst classified)
              (init_consistent (K := frozen) [0; 1; 2; 3]%nat 2 None 1 2 1.5 0.98 None 1e-5)
              eq_refl call_classifier) as (H1 & H2 & _).
  split; assumption.
Defined.

Lemma regression_output_shape_witness :
  well_shaped (fst regressed) /\ ncols (fst regressed) = 2%nat.
Proof.
  destruct (regression_output_shape regression (snd regressed) inputs None
              (fst regressed)
              (init_consistent (K := frozen) [0; 1; 2; 3]%nat 2 None 1 2 1.5 0.98 None 1e-5)
              eq_refl call_regression) as (H1 & H2 & _).
  split; assumption.
Defined.

Lemma loop_variables_shapes_witness :
  ncols (TabNet.mask_values (state 2)) = 4%nat /\
  ncols (TabNet.complemantary_aggregated_mask_values (state 2)) = 4%nat /\
  nrows (TabNet.masked_features (state 2)) = 1%nat.
Proof.
  destruct (loop_variables_shapes net inputs None 2 features (state 2)
              net_consistent pass_2)
    as ((_ & _ & H1) & (_ & _ & H2) & (_ & H3)).
  repeat split; assumption.
Defined.

Lemma total_entropy_upper_bound_witness :
  TabNet.total_entropy (state 3) <= ln (INR 4).
Proof.
  apply (total_entropy_upper_bound net inputs None features net
           (TabNet.output_aggregated (state 3)) (TabNet.total_entropy (state 3))
           (TabNet.model (state 3))).
  - exact net_consistent.
  - cbv [net TabNet.init TabNet.epsilon]; lra.
  - cbv; lia.
  - exact normalized.
  - unfold features, inputs, nrows; simpl; lia.
  - exact call_net.
Defined.

Lemma decision_step_returns_witness :
  exists st', TabNet.decision_step features None (state 1) 1 = Ok st'.
Proof.
  eapply (decision_step_returns net inputs None 1 features (state 1)).
  - exact net_consistent.
  - cbv; lia.
  - reflexivity.
  - exact pass_1.
  - reflexivity.
  - reflexivity.
  - reflexivity.
  - reflexivity.
  - intros _. eexists _, _. reflexivity.
Defined.

Lemma aggregated_mask_row_sum_witness :
  rsum (nth 0 (rows (TabNet.aggregated_mask_values (state 3))) [])
  = rsum (nth 0 (rows (TabNet.output_aggregated (state 3))) []) / INR (3 - 1).
Proof.
  apply (aggregated_mask_row_sum net inputs None 3 features (state 3)).
  - exact net_consistent.
  - cbv; lia.
  - cbv; lia.
  - cbv; lia.
  - exact pass_3.
  - cbv; lia.
Defined.
